(** * A doubly-linked list with a cursor: model of [linked_list.py]

    The Python module keeps [Node] objects on the heap and a [LinkedList]
    object holding references to them.  Objects are modelled by a store (a
    list of [Node] records addressed by position), references by
    [option addr] ([None] is Python's [None]), and methods by functions in a
    state-and-exception monad.  The two [while] loops of the module are
    given fuel, every other method is total. *)

From Stdlib Require Import ZArith Lia.
From stdpp Require Import base list strings pretty.

#[local] Set Warnings "-clear-no-such-hyp".

Local Open Scope string_scope.
Local Open Scope Z_scope.

(** ** Objects *)

Abbreviation addr := nat (only parsing).

(** [class Node]: a payload and the two links, both [None] at creation. *)
Record Node := mkNode {
  data : string;
  prev_node : option addr;
  next_node : option addr
}.

(** [class LinkedList]: the four attributes set by [__init__]. *)
Record LinkedList := mkLinkedList {
  head : option addr;
  tail : option addr;
  current : option addr;
  length : Z
}.

(** The whole program state: the heap of nodes, what has been printed, and
    the list object the methods are called on. *)
Record State := mkState {
  store : list Node;
  stdout : list string;
  self : LinkedList
}.

(** ** Exceptions and the method monad *)

(** [LinkedListError] is the module's own exception; [AttributeError] is
    what Python raises for an attribute access on [None].  [Dangling] is not
    a Python exception: it is what the model answers when a reference has
    no object in the store, which no call does in a state a program can
    reach ([reachable_no_Dangling]). *)
Inductive exn :=
| LinkedListError (msg : string)
| AttributeError
| Dangling.

(** A call returns, raises (both with the state reached so far), or is
    still running when the fuel of a [while] loop is spent. *)
Inductive outcome (A : Type) :=
| Ok (a : A) (s : State)
| Raise (e : exn) (s : State)
| OutOfFuel.

Arguments Ok {A} a s.
Arguments Raise {A} e s.
Arguments OutOfFuel {A}.

Definition M (A : Type) := State -> outcome A.

Definition ret {A} (a : A) : M A := fun s => Ok a s.

Definition bind {A B} (m : M A) (f : A -> M B) : M B :=
  fun s =>
    match m s with
    | Ok a s' => f a s'
    | Raise e s' => Raise e s'
    | OutOfFuel => OutOfFuel
    end.

Definition raise {A} (e : exn) : M A := fun s => Raise e s.

Definition out_of_fuel {A} : M A := fun _ => OutOfFuel.

(** [try: m  except AttributeError as exc: raise e from exc] *)
Definition try_except_AttributeError {A} (m : M A) (e : exn) : M A :=
  fun s =>
    match m s with
    | Raise AttributeError s' => Raise e s'
    | r => r
    end.

Declare Scope method_scope.
Delimit Scope method_scope with method.
Notation "x <- m ;; k" := (bind m (fun x => k))
  (at level 100, m at next level, k at level 200, right associativity)
  : method_scope.
Notation "m ;; k" := (bind m (fun _ => k))
  (at level 100, k at level 200, right associativity) : method_scope.
Local Open Scope method_scope.

(** *** Attribute access on [self] *)

Definition get_head : M (option addr) := fun s => Ok (head (self s)) s.
Definition get_tail : M (option addr) := fun s => Ok (tail (self s)) s.
Definition get_current : M (option addr) := fun s => Ok (current (self s)) s.
Definition get_length : M Z := fun s => Ok (length (self s)) s.

Definition with_self (f : LinkedList -> LinkedList) : M unit :=
  fun s => Ok tt (mkState (store s) (stdout s) (f (self s))).

Definition set_head (v : option addr) : M unit :=
  with_self (fun l => mkLinkedList v (tail l) (current l) (length l)).
Definition set_tail (v : option addr) : M unit :=
  with_self (fun l => mkLinkedList (head l) v (current l) (length l)).
Definition set_current (v : option addr) : M unit :=
  with_self (fun l => mkLinkedList (head l) (tail l) v (length l)).
Definition set_length (v : Z) : M unit :=
  with_self (fun l => mkLinkedList (head l) (tail l) (current l) v).

(** *** Attribute access on an [Optional[Node]] *)

(** Evaluating [o.<attr>]: [AttributeError] when [o] is [None]. *)
Definition deref (o : option addr) : M (addr * Node) :=
  fun s =>
    match o with
    | None => Raise AttributeError s
    | Some a =>
        match store s !! a with
        | Some nd => Ok (a, nd) s
        | None => Raise Dangling s
        end
    end.

Definition write (a : addr) (nd : Node) : M unit :=
  fun s => Ok tt (mkState (<[a := nd]> (store s)) (stdout s) (self s)).

Definition get_data (o : option addr) : M string :=
  r <- deref o ;; ret (data (snd r)).
Definition get_prev_node (o : option addr) : M (option addr) :=
  r <- deref o ;; ret (prev_node (snd r)).
Definition get_next_node (o : option addr) : M (option addr) :=
  r <- deref o ;; ret (next_node (snd r)).

Definition set_data (o : option addr) (v : string) : M unit :=
  r <- deref o ;;
  write (fst r) (mkNode v (prev_node (snd r)) (next_node (snd r))).
Definition set_prev_node (o : option addr) (v : option addr) : M unit :=
  r <- deref o ;;
  write (fst r) (mkNode (data (snd r)) v (next_node (snd r))).
Definition set_next_node (o : option addr) (v : option addr) : M unit :=
  r <- deref o ;;
  write (fst r) (mkNode (data (snd r)) (prev_node (snd r)) v).

(** [Node(data)]: a new object, at the first unused address. *)
Definition new_Node (d : string) : M (option addr) :=
  fun s =>
    Ok (Some (List.length (store s)))
       (mkState (store s ++ [mkNode d None None]) (stdout s) (self s)).

(** [print(line)] *)
Definition print (line : string) : M unit :=
  fun s => Ok tt (mkState (store s) (stdout s ++ [line]) (self s)).

(** [for _idx in range(n): body] *)
Fixpoint for_range (n : nat) (body : M unit) : M unit :=
  match n with
  | O => ret tt
  | S n' => body ;; for_range n' body
  end.

(** ** The methods of [LinkedList] *)

(** The body of the [for] loops of [set_current_index] and
    [find_node_by_index], which differ only in the error [e] they raise;
    the lemmas on these loops are stated with it. *)
Definition walk_step (e : exn) : M unit :=
  try_except_AttributeError
    (c <- get_current ;; x <- get_next_node c ;; set_current x) e.

(** [self.current is self.head] and [self.current is self.tail] *)
Definition at_head : M bool :=
  c <- get_current ;; h <- get_head ;; ret (bool_decide (c = h)).
Definition at_tail : M bool :=
  c <- get_current ;; t <- get_tail ;; ret (bool_decide (c = t)).

Definition set_current_index (index : Z) : M unit :=
  len <- get_length ;;
  if negb (index =? 0) && (index >? len - 1) then
    raise (LinkedListError "Index is out of bounds")
  else
    h <- get_head ;;
    set_current h ;;
    for_range (Z.to_nat index)
      (try_except_AttributeError
         (c <- get_current ;; n <- get_next_node c ;; set_current n)
         (LinkedListError "Invalid node was reached")).

Definition insert_node (d : string) (after : bool) (index : Z)
  : M (option addr) :=
  new_node <- new_Node d ;;
  set_current_index index ;;
  len <- get_length ;;
  (if len =? 0 then
     set_head new_node ;; set_tail new_node
   else if after then
     (c <- get_current ;; set_prev_node new_node c) ;;
     (c <- get_current ;; n <- get_next_node c ;;
      set_next_node new_node n) ;;
     (t <- at_tail ;;
      if (t : bool) then set_tail new_node
      else c <- get_current ;; n <- get_next_node c ;;
           set_prev_node n new_node) ;;
     (c <- get_current ;; set_next_node c new_node)
   else
     (c <- get_current ;; p <- get_prev_node c ;;
      set_prev_node new_node p) ;;
     (c <- get_current ;; set_next_node new_node c) ;;
     (h <- at_head ;;
      if (h : bool) then set_head new_node
      else c <- get_current ;; p <- get_prev_node c ;;
           set_next_node p new_node) ;;
     (c <- get_current ;; set_prev_node c new_node)) ;;
  set_current new_node ;;
  (len <- get_length ;; set_length (len + 1)) ;;
  ret new_node.

Definition modify_node (new_data : string) (index : Z) : M (option addr) :=
  set_current_index index ;;
  (c <- get_current ;; set_data c new_data) ;;
  get_current.

Definition remove_node (index : Z) : M string :=
  set_current_index index ;;
  (c <- get_current ;; p <- get_prev_node c ;;
   match p with
   | Some _ =>
       c <- get_current ;; n <- get_next_node c ;;
       c <- get_current ;; p <- get_prev_node c ;;
       set_next_node p n
   | None => ret tt
   end) ;;
  (c <- get_current ;; n <- get_next_node c ;;
   match n with
   | Some _ =>
       c <- get_current ;; p <- get_prev_node c ;;
       c <- get_current ;; n <- get_next_node c ;;
       set_prev_node n p
   | None => ret tt
   end) ;;
  c <- get_current ;; node_data <- get_data c ;;
  (c <- get_current ;; n <- get_next_node c ;; set_current n) ;;
  (len <- get_length ;; set_length (len - 1)) ;;
  ret node_data.

Definition previous_node : M (option addr) :=
  (c <- get_current ;; p <- get_prev_node c ;;
   match p with
   | Some _ => c <- get_current ;; p <- get_prev_node c ;; set_current p
   | None => ret tt
   end) ;;
  get_current.

(** [LinkedList.next_node]; the plain name is the attribute of [Node]. *)
Definition next_node_ : M (option addr) :=
  (c <- get_current ;; n <- get_next_node c ;;
   match n with
   | Some _ => c <- get_current ;; n <- get_next_node c ;; set_current n
   | None => ret tt
   end) ;;
  get_current.

Definition find_node_by_index (index : Z) : M (option addr) :=
  (h <- get_head ;; set_current h) ;;
  for_range (Z.to_nat index)
    (try_except_AttributeError
       (c <- get_current ;; n <- get_next_node c ;; set_current n)
       (LinkedListError "Index is out of bounds")) ;;
  get_current.

(** The [while ... else] loop of [find_node_by_data]. *)
Fixpoint find_node_by_data_loop (fuel : nat) (d : string) : M unit :=
  match fuel with
  | O => out_of_fuel
  | S fuel' =>
      c <- get_current ;;
      match c with
      | None => raise (LinkedListError "No node with given data was found")
      | Some _ =>
          x <- get_data c ;;
          if String.eqb x d then ret tt
          else
            (c <- get_current ;; n <- get_next_node c ;; set_current n) ;;
            find_node_by_data_loop fuel' d
      end
  end.

Definition find_node_by_data (fuel : nat) (d : string) : M (option addr) :=
  (h <- get_head ;; set_current h) ;;
  find_node_by_data_loop fuel d ;;
  get_current.

(** The [while] loop of [gather_node_data]; [index] and [list_data] are its
    two local variables. *)
Fixpoint gather_node_data_loop (fuel : nat) (indexes : list Z)
    (all_nodes : bool) (index : Z) (list_data : list (Z * string))
  : M (list (Z * string)) :=
  match fuel with
  | O => out_of_fuel
  | S fuel' =>
      c <- get_current ;;
      match c with
      | None => ret list_data
      | Some _ =>
          if all_nodes || bool_decide (index ∈ indexes) then
            c <- get_current ;; x <- get_data c ;;
            (c <- get_current ;; n <- get_next_node c ;; set_current n) ;;
            gather_node_data_loop fuel' indexes all_nodes (index + 1)
              (list_data ++ [(index, x)])
          else
            gather_node_data_loop fuel' indexes all_nodes (index + 1)
              list_data
      end
  end.

Definition gather_node_data (fuel : nat) (indexes : option (list Z))
    (all_nodes : bool) : M (list (Z * string)) :=
  let indexes := match indexes with None => [] | Some l => l end in
  (h <- get_head ;; set_current h) ;;
  gather_node_data_loop fuel indexes all_nodes 0 [].

(** [for index, data in ...: print(f'Node {index}: {self.current.data}')] *)
Fixpoint display_nodes_loop (l : list (Z * string)) : M unit :=
  match l with
  | [] => ret tt
  | (index, _) :: l' =>
      (c <- get_current ;; x <- get_data c ;;
       print ("Node " +:+ pretty index +:+ ": " +:+ x)) ;;
      display_nodes_loop l'
  end.

Definition display_nodes (fuel : nat) (indexes : option (list Z))
    (all_nodes : bool) : M unit :=
  l <- gather_node_data fuel indexes all_nodes ;;
  display_nodes_loop l.

(** [for index, data in enumerate(initial_data)] of [__init__], from
    position [index] on. *)
Fixpoint init_loop (index : Z) (initial_data : list string) : M unit :=
  match initial_data with
  | [] => ret tt
  | d :: rest =>
      (if index =? 0 then insert_node d false 0
       else insert_node d true (index - 1)) ;;
      init_loop (index + 1) rest
  end.

(** [LinkedList.__init__] *)
Definition __init__ (initial_data : option (list string)) : M unit :=
  set_head None ;; set_tail None ;; set_current None ;; set_length 0 ;;
  match initial_data with
  | Some ((_ :: _) as l) => init_loop 0 l
  | Some [] | None => ret tt
  end.

(** The state a program starts from: no objects, nothing printed.  The
    attributes of [self] are whatever [__init__] makes them. *)
Definition boot : State := mkState [] [] (mkLinkedList None None None 0).

(** [LinkedList(initial_data)] evaluated in the starting state. *)
Definition new_LinkedList (initial_data : option (list string))
  : outcome unit := __init__ initial_data boot.

(** Continuing a program: the next call runs in the state the previous one
    returned; an exception or a loop that does not end stops the program. *)
Definition and_then {A B} (o : outcome A) (m : M B) : outcome B :=
  match o with
  | Ok _ s => m s
  | Raise e s => Raise e s
  | OutOfFuel => OutOfFuel
  end.

(** The state a call ends in, when it ends. *)
Definition final {A} (o : outcome A) : option State :=
  match o with
  | Ok _ s | Raise _ s => Some s
  | OutOfFuel => None
  end.

(** The state [s] with the cursor put on [c]. *)
Definition moved (c : option addr) (s : State) : State :=
  mkState (store s) (stdout s)
    (mkLinkedList (head (self s)) (tail (self s)) c (length (self s))).

(** [o.data] read off a state, for statements about results. *)
Definition value_at (s : State) (o : option addr) : option string :=
  match o with
  | Some a => data <$> store s !! a
  | None => None
  end.

(** Following [next_node] links [k] times from [o]. *)
Fixpoint walk (st : list Node) (k : nat) (o : option addr) : option addr :=
  match k with
  | O => o
  | S k' =>
      match o with
      | Some a =>
          match st !! a with
          | Some nd => walk st k' (next_node nd)
          | None => None
          end
      | None => None
      end
  end.

Definition reachable_from_head (s : State) (a : addr) : Prop :=
  exists k, walk (store s) k (head (self s)) = Some a.

(** Calling a method [n] times in a row, collecting what it returned. *)
Fixpoint repeat_call {A} (n : nat) (m : M A) : M (list A) :=
  match n with
  | O => ret []
  | S n' => r <- m ;; rs <- repeat_call n' m ;; ret (r :: rs)
  end.

(** ** Method calls as data *)

(** What a client of the class can do with a list object. *)
Inductive call :=
| call_init (initial_data : option (list string))
| call_at_head
| call_at_tail
| call_set_current_index (index : Z)
| call_insert_node (d : string) (after : bool) (index : Z)
| call_modify_node (new_data : string) (index : Z)
| call_remove_node (index : Z)
| call_previous_node
| call_next_node
| call_find_node_by_index (index : Z)
| call_find_node_by_data (d : string)
| call_gather_node_data (indexes : option (list Z)) (all_nodes : bool)
| call_display_nodes (indexes : option (list Z)) (all_nodes : bool).

Definition forget {A} (m : M A) : M unit := _ <- m ;; ret tt.

(** Running a call for its effect on the state. *)
Definition exec (fuel : nat) (c : call) : M unit :=
  match c with
  | call_init initial_data => __init__ initial_data
  | call_at_head => forget at_head
  | call_at_tail => forget at_tail
  | call_set_current_index index => set_current_index index
  | call_insert_node d after index => forget (insert_node d after index)
  | call_modify_node new_data index => forget (modify_node new_data index)
  | call_remove_node index => forget (remove_node index)
  | call_previous_node => forget previous_node
  | call_next_node => forget next_node_
  | call_find_node_by_index index => forget (find_node_by_index index)
  | call_find_node_by_data d => forget (find_node_by_data fuel d)
  | call_gather_node_data indexes all_nodes =>
      forget (gather_node_data fuel indexes all_nodes)
  | call_display_nodes indexes all_nodes =>
      display_nodes fuel indexes all_nodes
  end.

(** The states a program can be in after any number of calls, each of which
    returned or raised. *)
Inductive reachable : State -> Prop :=
| reachable_boot : reachable boot
| reachable_call s fuel c s' :
    reachable s -> final (exec fuel c s) = Some s' -> reachable s'.

(** ** The shape of the heap *)

(** [dseg st pp o l o']: starting at reference [o] and following
    [next_node], the nodes met are those of [l], in order, and the walk then
    stands at [o'].  Each node's [prev_node] is either [None] or the node met
    just before it ([pp] for the first one). *)
Fixpoint dseg (st : list Node) (pp o : option addr) (l : list addr)
    (o' : option addr) : Prop :=
  match l with
  | [] => o = o'
  | a :: l' =>
      o = Some a /\
      exists nd, st !! a = Some nd /\
        (prev_node nd = None \/ prev_node nd = pp) /\
        dseg st (Some a) (next_node nd) l' o'
  end.

(** The node met last in [l], or [pp] when [l] is empty. *)
Definition last_or (pp : option addr) (l : list addr) : option addr :=
  match last l with
  | Some a => Some a
  | None => pp
  end.

(** What every method keeps true, whether it returns or raises: the nodes
    from [head] form a finite chain [ns] without repetition, the cursor is
    on it when it is not [None], and [tail], when it is on the chain, is its
    last node. *)
Definition shape (ns : list addr) (s : State) : Prop :=
  dseg (store s) None (head (self s)) ns None /\
  NoDup ns /\
  (forall a, current (self s) = Some a -> a ∈ ns) /\
  (forall t, tail (self s) = Some t ->
     (t < List.length (store s))%nat /\
     forall nd, t ∈ ns -> store s !! t = Some nd -> next_node nd = None).

Definition Inv (s : State) : Prop := exists ns, shape ns s.

(** Python's [enumerate(values, start)]. *)
Fixpoint enumerate_from (start : Z) (values : list string)
  : list (Z * string) :=
  match values with
  | [] => []
  | v :: rest => (start, v) :: enumerate_from (start + 1) rest
  end.

(** The node at [a] carries the payload [v]. *)
Definition holds (st : list Node) (a : addr) (v : string) : Prop :=
  exists nd, st !! a = Some nd /\ data nd = v.

(** The list object stands for the sequence [values]: the chain from [head]
    carries them in order, [tail] is its last node, [length] its length,
    and each node's [prev_node] is the node before it. *)
Definition represents (values : list string) (s : State) : Prop :=
  exists ns : list addr,
    shape ns s /\
    Forall2 (holds (store s)) ns values /\
    tail (self s) = last ns /\
    length (self s) = Z.of_nat (List.length ns) /\
    forall i a nd,
      ns !! i = Some a -> store s !! a = Some nd ->
      prev_node nd = match i with O => None | S j => ns !! j end.

(** The cursor as the spec describes it, without the clause on [length]. *)
Definition cursor_ok (s : State) : Prop :=
  current (self s) = None \/
  exists a, current (self s) = Some a /\ reachable_from_head s a.

(** A method that keeps a property of the state on every way out, and never
    finds a reference without an object. *)
Definition safe {A} (P : State -> Prop) (m : M A) : Prop :=
  forall s, P s ->
    match m s with
    | Ok _ s' => P s'
    | Raise e s' => e <> Dangling /\ P s'
    | OutOfFuel => True
    end.

(** A method that always returns or raises: no loop in it can go on for
    ever. *)
Definition ends {A} (m : M A) : Prop := forall s, m s <> OutOfFuel.

(** A method that leaves a property of the state as it found it, on every
    way out. *)
Definition preserves {A} (P : State -> Prop) (m : M A) : Prop :=
  forall s, P s ->
    match m s with
    | Ok _ s' | Raise _ s' => P s'
    | OutOfFuel => True
    end.

(** ** Lists of known content, address by address *)

(** [dlseg st pp o ns values o']: starting at reference [o] and following
    [next_node], the nodes met are those of [ns], in order, carrying
    [values], and the walk then stands at [o']; each node's [prev_node] is
    the node met just before it ([pp] for the first one). *)
Fixpoint dlseg (st : list Node) (pp o : option addr) (ns : list addr)
    (values : list string) (o' : option addr) : Prop :=
  match ns with
  | [] => o = o' /\ values = []
  | a :: ns' =>
      o = Some a /\
      exists nd v values',
        values = v :: values' /\ st !! a = Some nd /\ data nd = v /\
        prev_node nd = pp /\
        dlseg st (Some a) (next_node nd) ns' values' o'
  end.

(** [represents values s] with the nodes named: [ns] are the addresses of
    the nodes of the list, from [head] to [tail]. *)
Definition well_linked (ns : list addr) (values : list string) (s : State)
  : Prop :=
  dlseg (store s) None (head (self s)) ns values None /\
  NoDup ns /\
  tail (self s) = last ns /\
  length (self s) = Z.of_nat (List.length ns) /\
  forall a, current (self s) = Some a -> a ∈ ns.

(** The list a, b, c as the constructor builds it. *)
Definition abc : State :=
  mkState [mkNode "a" None (Some 1%nat);
           mkNode "b" (Some 0%nat) (Some 2%nat);
           mkNode "c" (Some 1%nat) None] []
    (mkLinkedList (Some 0%nat) (Some 2%nat) (Some 2%nat) 3).

(** * Properties *)

(** Evaluating a method body on a state: the monad and the attribute
    accesses are unfolded, reads of the store are left for rewriting. *)
Ltac run :=
  cbv beta iota zeta delta
    [bind ret raise out_of_fuel try_except_AttributeError
     get_head get_tail get_current get_length with_self
     set_head set_tail set_current set_length
     deref write get_data get_prev_node get_next_node
     set_data set_prev_node set_next_node new_Node print
     at_head at_tail forget and_then final moved];
  cbn [store stdout self head tail current length
       data prev_node next_node fst snd].

(** Reads of a store that has been written to. *)
Ltac lk :=
  repeat first
    [ rewrite list_lookup_insert_eq
        by (rewrite ?length_insert, ?length_app; simpl; lia)
    | rewrite list_lookup_insert_ne by (simpl; lia)
    | rewrite lookup_app_l by lia
    | rewrite list_lookup_middle by reflexivity ].

(** Facts read off a [NoDup] hypothesis [H]. *)
Ltac by_NoDup H :=
  generalize H;
  repeat (rewrite ?NoDup_app, ?NoDup_cons; simpl);
  repeat setoid_rewrite elem_of_app;
  repeat setoid_rewrite elem_of_cons;
  naive_solver.

Ltac by_elem_of :=
  repeat (rewrite ?elem_of_app, ?elem_of_cons, ?elem_of_nil);
  naive_solver.

(** ** Runs on small lists *)

(** The lists the statements below start from, as [__init__] builds them. *)
Example list_a :
  new_LinkedList (Some ["a"]) =
  Ok tt (mkState [mkNode "a" None None] []
           (mkLinkedList (Some 0%nat) (Some 0%nat) (Some 0%nat) 1)).
Proof. reflexivity. Qed.

Example list_ab :
  new_LinkedList (Some ["a"; "b"]) =
  Ok tt (mkState [mkNode "a" None (Some 1%nat);
                  mkNode "b" (Some 0%nat) None] []
           (mkLinkedList (Some 0%nat) (Some 1%nat) (Some 1%nat) 2)).
Proof. reflexivity. Qed.

Example list_abc :
  new_LinkedList (Some ["a"; "b"; "c"]) =
  Ok tt (mkState [mkNode "a" None (Some 1%nat);
                  mkNode "b" (Some 0%nat) (Some 2%nat);
                  mkNode "c" (Some 1%nat) None] []
           (mkLinkedList (Some 0%nat) (Some 2%nat) (Some 2%nat) 3)).
Proof. reflexivity. Qed.

Example list_empty : new_LinkedList None = Ok tt boot.
Proof. reflexivity. Qed.

(** C1 (code defect).  [remove_node] assigns neither [head] nor [tail].
    On the list a, b: removing index 0 returns "a" and [head] is still the
    removed node (address 0), not its former successor (address 1);
    removing index 1 returns "b" and [tail] is still the removed node
    (address 1), not its former predecessor (address 0). *)
Theorem remove_node_endpoints_not_corrected :
  and_then (new_LinkedList (Some ["a"; "b"])) (remove_node 0) =
    Ok "a" (mkState [mkNode "a" None (Some 1%nat); mkNode "b" None None] []
              (mkLinkedList (Some 0%nat) (Some 1%nat) (Some 1%nat) 1))
  /\
  and_then (new_LinkedList (Some ["a"; "b"])) (remove_node 1) =
    Ok "b" (mkState [mkNode "a" None None; mkNode "b" (Some 0%nat) None] []
              (mkLinkedList (Some 0%nat) (Some 1%nat) None 1)).
Proof. split; reflexivity. Qed.

(** C2 (code defect).  Removing the only element of the list a returns "a"
    and leaves [length] 0 and [current] [None], but [head] and [tail] still
    refer to the removed node: [length == 0] holds while [head] and [tail]
    are not [None]. *)
Theorem remove_node_sole_element_keeps_head_tail :
  let s := mkState [mkNode "a" None None] []
             (mkLinkedList (Some 0%nat) (Some 0%nat) None 0) in
  and_then (new_LinkedList (Some ["a"])) (remove_node 0) = Ok "a" s /\
  length (self s) = 0 /\
  current (self s) = None /\
  head (self s) = Some 0%nat /\
  tail (self s) = Some 0%nat /\
  value_at s (head (self s)) = Some "a".
Proof. vm_compute. repeat split. Qed.

(** C5 (code defect).  On the list a, b, [remove_node(0)] returns "a" and
    takes [length] from 2 to 1, but [find_node_by_index(0)] afterwards
    returns the removed node (address 0, payload "a") and not the node that
    was at index 1 (address 1, payload "b"). *)
Theorem remove_node_first_then_find_returns_removed :
  let s0 := mkState [mkNode "a" None (Some 1%nat);
                     mkNode "b" (Some 0%nat) None] []
              (mkLinkedList (Some 0%nat) (Some 1%nat) (Some 1%nat) 2) in
  let s1 := mkState [mkNode "a" None (Some 1%nat); mkNode "b" None None] []
              (mkLinkedList (Some 0%nat) (Some 1%nat) (Some 1%nat) 1) in
  let s2 := mkState [mkNode "a" None (Some 1%nat); mkNode "b" None None] []
              (mkLinkedList (Some 0%nat) (Some 1%nat) (Some 0%nat) 1) in
  new_LinkedList (Some ["a"; "b"]) = Ok tt s0 /\
  find_node_by_index 1 s0 = Ok (Some 1%nat) s0 /\
  value_at s0 (Some 1%nat) = Some "b" /\
  remove_node 0 s0 = Ok "a" s1 /\
  length (self s1) = length (self s0) - 1 /\
  find_node_by_index 0 s1 = Ok (Some 0%nat) s2 /\
  value_at s2 (Some 0%nat) = Some "a".
Proof. vm_compute. repeat split. Qed.

(** C6 (code defect).  On the one-element list a, [find_node_by_index(1)]
    raises nothing: the walk steps from the last node onto [None] and
    returns it.  The error only comes from index 2 on. *)
Theorem find_node_by_index_at_length_returns_None :
  and_then (new_LinkedList (Some ["a"])) (find_node_by_index 1) =
    Ok None (mkState [mkNode "a" None None] []
               (mkLinkedList (Some 0%nat) (Some 0%nat) None 1))
  /\
  and_then (new_LinkedList (Some ["a"])) (find_node_by_index 2) =
    Raise (LinkedListError "Index is out of bounds")
      (mkState [mkNode "a" None None] []
         (mkLinkedList (Some 0%nat) (Some 0%nat) None 1)).
Proof. split; reflexivity. Qed.

(** X25.  On a list that never held a node ([head], [tail] and [current]
    [None] and [length] 0, as [LinkedList()] makes it), whatever else is on
    the heap, [remove_node(0)] and [modify_node(new_data, 0)] raise
    [AttributeError] and the state they raise in is the state they were
    called in. *)
Theorem remove_modify_on_empty_list st out new_data :
  let s := mkState st out (mkLinkedList None None None 0) in
  remove_node 0 s = Raise AttributeError s /\
  modify_node new_data 0 s = Raise AttributeError s.
Proof. split; reflexivity. Qed.

(** C10 (code defect).  On a list emptied by [remove_node] neither call
    raises.  [remove_node(0)] on the list a leaves [length] 0 and the
    cursor [None], but [head] still refers to the removed node (the defect
    of C1 and C2).  A second [remove_node(0)] then returns "a" again and
    takes [length] to -1, and [modify_node("x", 0)] returns the removed
    node with its payload replaced, the cursor on it.  So on the lists of
    [length] 0 a program can reach, it is not true that the calls raise
    and leave the list as it was. *)
Theorem remove_modify_on_emptied_list :
  let emptied :=
    mkState [mkNode "a" None None] []
      (mkLinkedList (Some 0%nat) (Some 0%nat) None 0) in
  and_then (new_LinkedList (Some ["a"])) (remove_node 0) = Ok "a" emptied /\
  remove_node 0 emptied
    = Ok "a" (mkState [mkNode "a" None None] []
                (mkLinkedList (Some 0%nat) (Some 0%nat) None (-1))) /\
  modify_node "x" 0 emptied
    = Ok (Some 0%nat)
        (mkState [mkNode "x" None None] []
           (mkLinkedList (Some 0%nat) (Some 0%nat) (Some 0%nat) 0)) /\
  ~ (forall s, reachable s -> length (self s) = 0 ->
       exists e, remove_node 0 s = Raise e s) /\
  ~ (forall s new_data, reachable s -> length (self s) = 0 ->
       exists e, modify_node new_data 0 s = Raise e s).
Proof.
  intros emptied.
  assert (reachable emptied) as Hr.
  { apply (reachable_call
             (mkState [mkNode "a" None None] []
                (mkLinkedList (Some 0%nat) (Some 0%nat) (Some 0%nat) 1))
             0 (call_remove_node 0)); [|reflexivity].
    apply (reachable_call boot 0 (call_init (Some ["a"])));
      [apply reachable_boot|reflexivity]. }
  split; [reflexivity|]. split; [reflexivity|]. split; [reflexivity|].
  split.
  - intros H. destruct (H emptied Hr eq_refl) as (e & E). discriminate E.
  - intros H. destruct (H emptied "x" Hr eq_refl) as (e & E). discriminate E.
Qed.

(** ** The two [while] loops *)

(** One turn of the loop of [gather_node_data], case by case. *)
Lemma gather_node_data_loop_done fuel indexes all_nodes index list_data s :
  current (self s) = None ->
  gather_node_data_loop (S fuel) indexes all_nodes index list_data s
    = Ok list_data s.
Proof. intros H. simpl. run. by rewrite H. Qed.

Lemma gather_node_data_loop_take fuel indexes all_nodes index list_data s
    a nd :
  current (self s) = Some a -> store s !! a = Some nd ->
  all_nodes || bool_decide (index ∈ indexes) = true ->
  gather_node_data_loop (S fuel) indexes all_nodes index list_data s
    = gather_node_data_loop fuel indexes all_nodes (index + 1)
        (list_data ++ [(index, data nd)]) (moved (next_node nd) s).
Proof.
  intros Hc Ha Hin. simpl. repeat (run; rewrite ?Hc, ?Hin, ?Ha).
  reflexivity.
Qed.

Lemma gather_node_data_loop_skip fuel indexes all_nodes index list_data s a :
  current (self s) = Some a ->
  all_nodes || bool_decide (index ∈ indexes) = false ->
  gather_node_data_loop (S fuel) indexes all_nodes index list_data s
    = gather_node_data_loop fuel indexes all_nodes (index + 1) list_data s.
Proof. intros Hc Hin. simpl. run. by rewrite Hc, Hin. Qed.

(** Once the walk stands on a node and no index from [index] on is asked
    for, the loop neither moves nor ends. *)
Lemma gather_node_data_loop_stalls fuel indexes index list_data s a :
  current (self s) = Some a ->
  (forall j, index <= j -> j ∉ indexes) ->
  gather_node_data_loop fuel indexes false index list_data s = OutOfFuel.
Proof.
  intros Hc. revert index list_data.
  induction fuel as [|fuel IH]; intros index list_data Hout; [reflexivity|].
  erewrite gather_node_data_loop_skip; [|done|].
  - apply IH. intros j Hj. apply Hout. lia.
  - apply bool_decide_eq_false_2, Hout. lia.
Qed.

(** A loop that ended with some fuel ends the same way with more. *)
Lemma gather_node_data_loop_more_fuel fuel k indexes all_nodes :
  forall index list_data s r s',
  gather_node_data_loop fuel indexes all_nodes index list_data s = Ok r s' ->
  gather_node_data_loop (fuel + k) indexes all_nodes index list_data s
    = Ok r s'.
Proof.
  induction fuel as [|fuel IH]; intros index list_data s r s'; [discriminate|].
  destruct s as [st out [h t [a|] n]]; simpl; run; [|exact (fun H => H)].
  destruct (all_nodes || bool_decide (index ∈ indexes)); [|apply IH].
  destruct (st !! a) as [nd|] eqn:E; repeat (run; rewrite ?E);
    [apply IH|discriminate].
Qed.

Lemma find_node_by_data_loop_more_fuel fuel k d :
  forall s r s',
  find_node_by_data_loop fuel d s = Ok r s' ->
  find_node_by_data_loop (fuel + k) d s = Ok r s'.
Proof.
  induction fuel as [|fuel IH]; intros s r s'; [discriminate|].
  destruct s as [st out [h t [a|] n]]; simpl; run; [|exact (fun H => H)].
  destruct (st !! a) as [nd|] eqn:E; repeat (run; rewrite ?E);
    [|discriminate].
  destruct (String.eqb (data nd) d); repeat (run; rewrite ?E);
    [exact (fun H => H)|apply IH].
Qed.

(** On a list that is not empty, [gather_node_data()] with the default
    arguments does not return. *)
Lemma gather_node_data_defaults_diverge fuel s a :
  head (self s) = Some a ->
  gather_node_data fuel None false s = OutOfFuel.
Proof.
  intros Hh. unfold gather_node_data. run.
  apply (gather_node_data_loop_stalls _ _ _ _ _ a); [done|].
  intros j _. apply not_elem_of_nil.
Qed.

(** C3 (code defect).  On the list a, b, c the call
    [gather_node_data([0, 2])] does not return, whatever the fuel: the
    walk moves only when an index matches, so after recording index 0 it
    records the node b under index 2, moves to c, and from index 3 on
    nothing matches and nothing moves. *)
Theorem gather_node_data_noncontiguous_never_returns fuel :
  and_then (new_LinkedList (Some ["a"; "b"; "c"]))
    (gather_node_data fuel (Some [0; 2]) false) = OutOfFuel.
Proof.
  rewrite list_abc. unfold and_then, gather_node_data. run.
  destruct fuel as [|[|[|fuel]]]; [reflexivity..|].
  erewrite gather_node_data_loop_take by reflexivity.
  erewrite gather_node_data_loop_skip by reflexivity.
  erewrite gather_node_data_loop_take by reflexivity.
  apply (gather_node_data_loop_stalls _ _ _ _ _ 2%nat); [reflexivity|].
  cbn. intros j Hj. rewrite !elem_of_cons, elem_of_nil. lia.
Qed.

(** What the loop of C3 holds when it stalls: the pair recorded for index 2
    carries the payload of the node at index 1. *)
Example gather_node_data_noncontiguous_trace fuel :
  gather_node_data_loop (3 + fuel) [0; 2] false 0 []
    (mkState [mkNode "a" None (Some 1%nat);
              mkNode "b" (Some 0%nat) (Some 2%nat);
              mkNode "c" (Some 1%nat) None] []
       (mkLinkedList (Some 0%nat) (Some 2%nat) (Some 0%nat) 3))
  = gather_node_data_loop fuel [0; 2] false 3 [(0, "a"); (2, "b")]
      (mkState [mkNode "a" None (Some 1%nat);
                mkNode "b" (Some 0%nat) (Some 2%nat);
                mkNode "c" (Some 1%nat) None] []
         (mkLinkedList (Some 0%nat) (Some 2%nat) (Some 2%nat) 3)).
Proof.
  change (3 + fuel)%nat with (S (S (S fuel))).
  erewrite gather_node_data_loop_take by reflexivity.
  erewrite gather_node_data_loop_skip by reflexivity.
  erewrite gather_node_data_loop_take by reflexivity.
  reflexivity.
Qed.

(** C4 (code defect).  [gather_node_data] does not end on every input: on
    the one-element list a, the call with no indexes and [all_nodes] false
    is still in its loop whatever the fuel. *)
Theorem gather_node_data_does_not_terminate fuel :
  and_then (new_LinkedList (Some ["a"])) (gather_node_data fuel None false)
    = OutOfFuel.
Proof.
  rewrite list_a. unfold and_then.
  by apply (gather_node_data_defaults_diverge _ _ 0%nat).
Qed.

(** C8.  [LinkedList(["a", "b", "c"])] has "a" at [head], "c" at [tail],
    [length] 3, and [gather_node_data(all_nodes=True)] returns
    [(0, "a"), (1, "b"), (2, "c")], with any fuel from 4 on. *)
Theorem constructor_inserts_in_order :
  let s := mkState [mkNode "a" None (Some 1%nat);
                    mkNode "b" (Some 0%nat) (Some 2%nat);
                    mkNode "c" (Some 1%nat) None] []
             (mkLinkedList (Some 0%nat) (Some 2%nat) (Some 2%nat) 3) in
  new_LinkedList (Some ["a"; "b"; "c"]) = Ok tt s /\
  value_at s (head (self s)) = Some "a" /\
  value_at s (tail (self s)) = Some "c" /\
  length (self s) = 3 /\
  forall k, gather_node_data (4 + k) None true s
            = Ok [(0, "a"); (1, "b"); (2, "c")] (moved None s).
Proof.
  cbv zeta. do 4 (split; [reflexivity|]).
  intros k. unfold gather_node_data. run.
  by apply (gather_node_data_loop_more_fuel 4 k).
Qed.

(** ** Chains of nodes *)

Section Chains.
Implicit Types (st : list Node) (l : list nat) (pp o : option nat).

Lemma last_or_cons pp a l : last_or pp (a :: l) = last_or (Some a) l.
Proof.
  unfold last_or. rewrite last_cons. by destruct (last l).
Qed.

Lemma last_or_snoc pp l a : last_or pp (l ++ [a]) = Some a.
Proof. unfold last_or. by rewrite last_snoc. Qed.

Lemma dseg_app st pp o l1 l2 o' :
  dseg st pp o (l1 ++ l2) o' <->
  exists m, dseg st pp o l1 m /\ dseg st (last_or pp l1) m l2 o'.
Proof.
  revert pp o. induction l1 as [|a l1 IH]; intros pp o; simpl.
  - split; [eauto|]. by intros (m & -> & H).
  - setoid_rewrite last_or_cons. split.
    + intros (-> & nd & Hnd & Hp & H). apply IH in H as (m & H1 & H2).
      exists m. eauto 10.
    + intros (m & (-> & nd & Hnd & Hp & H1) & H2).
      split; [done|]. exists nd. do 2 (split; [done|]). apply IH. eauto.
Qed.

(** Splitting a chain at one of its nodes. *)
Lemma dseg_focus st pp o l1 a l2 o' :
  dseg st pp o (l1 ++ a :: l2) o' <->
  dseg st pp o l1 (Some a) /\
  exists nd, st !! a = Some nd /\
    (prev_node nd = None \/ prev_node nd = last_or pp l1) /\
    dseg st (Some a) (next_node nd) l2 o'.
Proof.
  rewrite dseg_app. simpl. split.
  - intros (m & H1 & -> & H2). eauto.
  - intros (H1 & H2). eauto.
Qed.

(** A chain only depends on the nodes it goes through. *)
Lemma dseg_ext st st' pp o l o' :
  (forall x, x ∈ l -> st' !! x = st !! x) ->
  dseg st pp o l o' -> dseg st' pp o l o'.
Proof.
  revert pp o. induction l as [|a l IH]; intros pp o Hagree; simpl; [done|].
  intros (-> & nd & Hnd & Hp & H). split; [done|]. exists nd.
  rewrite Hagree by (rewrite elem_of_cons; by left).
  do 2 (split; [done|]). apply IH; [|done].
  intros x Hx. apply Hagree. rewrite elem_of_cons. by right.
Qed.

Lemma dseg_allocated st pp o l o' x :
  dseg st pp o l o' -> x ∈ l -> (x < List.length st)%nat.
Proof.
  revert pp o. induction l as [|a l IH]; intros pp o; simpl.
  - intros _ H. by apply elem_of_nil in H.
  - intros (-> & nd & Hnd & _ & H) [->|Hx]%elem_of_cons.
    + by eapply lookup_lt_Some.
    + eauto.
Qed.

Lemma dseg_start st pp o l : dseg st pp o l None -> o = l !! 0%nat.
Proof. destruct l; simpl; [done|]. by intros (-> & _). Qed.

Lemma dseg_from_None st pp l o' : dseg st pp None l o' -> l = [] /\ o' = None.
Proof. destruct l; simpl; [done|]. by intros (? & _). Qed.

(** The node at position [i] of a chain and where its [next_node] leads. *)
Lemma dseg_lookup st pp o l i a :
  dseg st pp o l None -> l !! i = Some a ->
  exists nd, st !! a = Some nd /\ next_node nd = l !! S i.
Proof.
  revert pp o i. induction l as [|b l IH]; intros pp o i; simpl; [done|].
  intros (-> & nd & Hnd & _ & H). destruct i as [|i]; simpl.
  - intros [= ->]. exists nd. split; [done|]. by apply dseg_start in H.
  - eauto.
Qed.
End Chains.

(** ** Walking along the chain *)

Section Walks.
Variables (st : list Node) (out : list string).
Variables (h t : option nat) (n : Z) (ns : list nat).
Hypothesis Hchain : dseg st None h ns None.

Local Abbreviation at_ c := (mkState st out (mkLinkedList h t c n)).

Lemma for_range_walk e k i c :
  c = ns !! i -> (i <= List.length ns)%nat ->
  for_range k (walk_step e) (at_ c) =
    if decide (i + k <= List.length ns)%nat
    then Ok tt (at_ (ns !! (i + k)%nat))
    else Raise e (at_ None).
Proof.
  revert i c. induction k as [|k IH]; intros i c -> Hi.
  - rewrite Nat.add_0_r, (decide_True _ _ Hi). reflexivity.
  - change (for_range (S k) (walk_step e))
      with (bind (walk_step e) (fun _ => for_range k (walk_step e))).
    unfold bind at 1. unfold walk_step at 1. run.
    destruct (ns !! i) as [a|] eqn:Ha.
    + destruct (dseg_lookup _ _ _ _ _ _ Hchain Ha) as (nd & Hnd & Hnext).
      apply lookup_lt_Some in Ha as Hlt.
      rewrite Hnd. run. rewrite Hnext.
      replace (i + S k)%nat with (S i + k)%nat by lia. by apply IH.
    + apply lookup_ge_None in Ha.
      rewrite decide_False by lia. reflexivity.
Qed.

Lemma set_current_index_walk c index :
  set_current_index index (at_ c) =
    if negb (index =? 0) && (index >? n - 1)
    then Raise (LinkedListError "Index is out of bounds") (at_ c)
    else if decide (Z.to_nat index <= List.length ns)%nat
    then Ok tt (at_ (ns !! Z.to_nat index))
    else Raise (LinkedListError "Invalid node was reached") (at_ None).
Proof.
  unfold set_current_index.
  fold (walk_step (LinkedListError "Invalid node was reached")).
  set (body := walk_step _). run.
  destruct (negb (index =? 0) && (index >? n - 1)); [reflexivity|]. run.
  apply (for_range_walk _ _ 0%nat); [|lia].
  exact (dseg_start _ _ _ _ Hchain).
Qed.

Lemma find_node_by_index_walk c index :
  find_node_by_index index (at_ c) =
    if decide (Z.to_nat index <= List.length ns)%nat
    then Ok (ns !! Z.to_nat index) (at_ (ns !! Z.to_nat index))
    else Raise (LinkedListError "Index is out of bounds") (at_ None).
Proof.
  unfold find_node_by_index.
  fold (walk_step (LinkedListError "Index is out of bounds")).
  set (body := walk_step _). run. subst body.
  rewrite (for_range_walk _ _ 0%nat h (dseg_start _ _ _ _ Hchain)) by lia.
  destruct (decide _); reflexivity.
Qed.
End Walks.

(** ** Methods that only move the cursor *)

Lemma shape_moved ns s c :
  shape ns s -> (forall a, c = Some a -> a ∈ ns) -> shape ns (moved c s).
Proof. intros (Hd & Hnd & _ & Ht) Hc. unfold shape. by simpl. Qed.

Lemma Inv_moved_None s : Inv s -> Inv (moved None s).
Proof. intros (ns & H). exists ns. by apply shape_moved. Qed.

Lemma Inv_moved_lookup ns s i :
  shape ns s -> Inv (moved (ns !! i) s).
Proof.
  intros H. exists ns. apply shape_moved; [done|].
  intros a Ha. by eapply list_elem_of_lookup_2.
Qed.

Lemma set_current_index_Inv index : safe Inv (set_current_index index).
Proof.
  intros [st out [h t c n]] (ns & Hs).
  rewrite (set_current_index_walk st out h t n ns (proj1 Hs)).
  destruct (negb (index =? 0) && (index >? n - 1));
    [split; [done|by exists ns]|].
  destruct (decide _).
  - apply (Inv_moved_lookup ns _ _ Hs).
  - split; [done|].
    apply (Inv_moved_None (mkState st out (mkLinkedList h t c n))).
    by exists ns.
Qed.

Lemma find_node_by_index_Inv index : safe Inv (find_node_by_index index).
Proof.
  intros [st out [h t c n]] (ns & Hs).
  rewrite (find_node_by_index_walk st out h t n ns (proj1 Hs)).
  destruct (decide _).
  - apply (Inv_moved_lookup ns _ _ Hs).
  - split; [done|].
    apply (Inv_moved_None (mkState st out (mkLinkedList h t c n))).
    by exists ns.
Qed.

(** The half of C6 that holds: on a list with [length >= 1],
    [set_current_index] refuses every index from [length] on, and leaves
    the cursor where it was. *)
Lemma set_current_index_out_of_bounds s index :
  1 <= length (self s) -> length (self s) <= index ->
  set_current_index index s
    = Raise (LinkedListError "Index is out of bounds") s.
Proof.
  intros Hlen Hidx. unfold set_current_index.
  set (body := try_except_AttributeError _ _). run.
  replace (negb (index =? 0) && (index >? length (self s) - 1)) with true;
    [reflexivity|].
  symmetry. apply andb_true_intro. split.
  - apply negb_true_iff, Z.eqb_neq. lia.
  - apply Z.gtb_lt. lia.
Qed.

(** ** What the invariant says about one node of the chain *)

(** A chain goes through the same nodes in a store where each of them has
    the same [next_node], and the same [prev_node] or [None]. *)
Lemma dseg_relax st st' pp o l o' :
  (forall x nd, x ∈ l -> st !! x = Some nd ->
     exists nd', st' !! x = Some nd' /\
       next_node nd' = next_node nd /\
       (prev_node nd' = prev_node nd \/ prev_node nd' = None)) ->
  dseg st pp o l o' -> dseg st' pp o l o'.
Proof.
  revert pp o. induction l as [|a l IH]; intros pp o Hagree; simpl; [done|].
  intros (-> & nd & Hnd & Hp & H). split; [done|].
  destruct (Hagree a nd) as (nd' & Hnd' & Hn' & Hp'); [|done|].
  { rewrite elem_of_cons. by left. }
  exists nd'. rewrite Hn'. split; [done|]. split.
  - destruct Hp' as [->|]; [done|by left].
  - apply IH; [|done]. intros x ndx Hx. apply Hagree.
    rewrite elem_of_cons. by right.
Qed.

Lemma shape_at ns s a :
  shape ns s -> a ∈ ns ->
  exists l1 l2 nd,
    ns = (l1 ++ a :: l2)%list /\
    dseg (store s) None (head (self s)) l1 (Some a) /\
    store s !! a = Some nd /\
    (prev_node nd = None \/ prev_node nd = last_or None l1) /\
    dseg (store s) (Some a) (next_node nd) l2 None.
Proof.
  intros (Hd & _) (l1 & l2 & ->)%list_elem_of_split.
  apply dseg_focus in Hd as (H1 & nd & Hnd & Hp & H2). eauto 10.
Qed.

Lemma last_or_None_Some l p :
  last_or None l = Some p -> exists l', l = (l' ++ [p])%list.
Proof.
  unfold last_or. destruct (last l) as [x|] eqn:E; [|done].
  intros [= ->]. by apply last_Some.
Qed.

Lemma dseg_from_Some st pp b l :
  dseg st pp (Some b) l None ->
  exists l' nd, l = b :: l' /\ st !! b = Some nd /\
    (prev_node nd = None \/ prev_node nd = pp) /\
    dseg st (Some b) (next_node nd) l' None.
Proof.
  destruct l as [|x l]; simpl; [done|].
  intros ([= <-] & nd & H). exists l, nd. by destruct H as (? & ? & ?).
Qed.

Lemma set_current_index_cases ns s index :
  shape ns s ->
  set_current_index index s
    = Raise (LinkedListError "Index is out of bounds") s \/
  set_current_index index s
    = Raise (LinkedListError "Invalid node was reached") (moved None s) \/
  exists c, (forall a, c = Some a -> a ∈ ns) /\
    set_current_index index s = Ok tt (moved c s).
Proof.
  destruct s as [st out [h t c n]]. intros Hs.
  rewrite (set_current_index_walk st out h t n ns (proj1 Hs)).
  destruct (negb (index =? 0) && (index >? n - 1)); [by left|].
  right. destruct (decide _); [right|by left].
  exists (ns !! Z.to_nat index). split; [|done].
  intros a Ha. by eapply list_elem_of_lookup_2.
Qed.

Lemma at_head_Inv : safe Inv at_head.
Proof. by intros [st out [h t c n]] H. Qed.

Lemma at_tail_Inv : safe Inv at_tail.
Proof. by intros [st out [h t c n]] H. Qed.

Lemma previous_node_Inv : safe Inv previous_node.
Proof.
  intros [st out [h t c n]] (ns & Hs). unfold previous_node. run.
  destruct c as [a|]; [|split; [done|by exists ns]].
  destruct (shape_at ns _ a Hs) as (l1 & l2 & nd & -> & _ & Hnd & Hp & _);
    [by apply Hs|].
  simpl in Hnd. rewrite Hnd. run.
  destruct (prev_node nd) as [p|] eqn:Ep; repeat (run; rewrite ?Hnd, ?Ep);
    [|by eexists].
  destruct Hp as [?|Hp]; [done|].
  symmetry in Hp. apply last_or_None_Some in Hp as (l1' & ->).
  eexists. apply (shape_moved _ _ (Some p) Hs).
  intros ? [= <-]. rewrite !elem_of_app, list_elem_of_singleton. auto.
Qed.

Lemma next_node_Inv : safe Inv next_node_.
Proof.
  intros [st out [h t c n]] (ns & Hs). unfold next_node_. run.
  destruct c as [a|]; [|split; [done|by exists ns]].
  destruct (shape_at ns _ a Hs) as (l1 & l2 & nd & -> & _ & Hnd & _ & H2);
    [by apply Hs|].
  simpl in Hnd, H2. rewrite Hnd. run.
  destruct (next_node nd) as [b|] eqn:Eb; repeat (run; rewrite ?Hnd, ?Eb);
    [|by eexists].
  apply dseg_from_Some in H2 as (l2' & _ & -> & _).
  eexists. apply (shape_moved _ _ (Some b) Hs).
  intros ? [= <-]. rewrite elem_of_app, !elem_of_cons. auto.
Qed.

(** Overwriting a node without touching its [next_node], its [prev_node]
    kept or reset. *)
Lemma shape_write ns st out l a nd nd' :
  shape ns (mkState st out l) -> st !! a = Some nd ->
  prev_node nd' = prev_node nd \/ prev_node nd' = None ->
  next_node nd' = next_node nd ->
  shape ns (mkState (<[a := nd']> st) out l).
Proof.
  intros (Hd & Hnd & Hc & Ht) Ha Hp Hn. unfold shape in *. simpl in *.
  apply lookup_lt_Some in Ha as Hlt.
  split; [|split; [done|split; [done|]]].
  - apply (dseg_relax st); [|done]. intros x ndx _ Hx.
    destruct (decide (a = x)) as [<-|Hne].
    + rewrite list_lookup_insert_eq by done. exists nd'.
      rewrite Ha in Hx. injection Hx as <-. done.
    + rewrite list_lookup_insert_ne by done. eauto.
  - intros t Et. destruct (Ht t Et) as (Hlen & Hlast).
    rewrite length_insert. split; [done|]. intros x Hin.
    destruct (decide (a = t)) as [<-|Hne].
    + rewrite list_lookup_insert_eq by done. intros [= <-].
      rewrite Hn. eauto.
    + rewrite list_lookup_insert_ne by done. eauto.
Qed.

Lemma modify_node_Inv new_data index :
  safe Inv (modify_node new_data index).
Proof.
  intros [st out [h t c n]] (ns & Hs). unfold modify_node. run.
  destruct (set_current_index_cases ns _ index Hs)
    as [E|[E|(c1 & Hc1 & E)]]; rewrite E; run;
    [split; [done|by exists ns]| |].
  { split; [done|]. exists ns. by apply (shape_moved _ _ None Hs). }
  apply (shape_moved _ _ c1 Hs) in Hc1 as Hs1. simpl in Hs1.
  destruct c1 as [a|]; [|split; [done|by exists ns]].
  destruct (shape_at ns _ a Hs1) as (_ & _ & nd & _ & _ & Hnd & _);
    [by apply Hs1|].
  simpl in Hnd. rewrite Hnd. run. exists ns. eapply shape_write; eauto.
Qed.

Lemma find_node_by_data_loop_shape ns fuel d :
  safe (shape ns) (find_node_by_data_loop fuel d).
Proof.
  induction fuel as [|fuel IH]; [done|].
  intros [st out [h t c n]] Hs. simpl. run.
  destruct c as [a|]; run; [|done].
  destruct (shape_at ns _ a Hs) as (l1 & l2 & nd & -> & _ & Hnd & _ & H2);
    [by apply Hs|].
  simpl in Hnd, H2. rewrite Hnd. run.
  destruct (String.eqb (data nd) d); repeat (run; rewrite ?Hnd); [done|].
  apply IH. apply (shape_moved _ _ (next_node nd) Hs).
  intros b Eb. rewrite Eb in H2.
  apply dseg_from_Some in H2 as (l2' & _ & -> & _).
  rewrite elem_of_app, !elem_of_cons. auto.
Qed.

Lemma shape_head ns s : shape ns s -> forall a, head (self s) = Some a -> a ∈ ns.
Proof.
  intros (Hd & _) a Ha. apply dseg_start in Hd. rewrite Ha in Hd.
  by eapply list_elem_of_lookup_2.
Qed.

Lemma find_node_by_data_Inv fuel d : safe Inv (find_node_by_data fuel d).
Proof.
  intros [st out [h t c n]] (ns & Hs). unfold find_node_by_data. run.
  pose proof (shape_moved _ _ h Hs (shape_head _ _ Hs)) as Hs1.
  apply (find_node_by_data_loop_shape ns fuel d) in Hs1. simpl in Hs1.
  destruct (find_node_by_data_loop _ _ _); [by exists ns| |done].
  destruct Hs1. split; [done|by exists ns].
Qed.

Lemma gather_node_data_loop_shape ns fuel indexes all_nodes :
  forall index list_data,
  safe (shape ns)
    (gather_node_data_loop fuel indexes all_nodes index list_data).
Proof.
  induction fuel as [|fuel IH]; [done|].
  intros index list_data [st out [h t c n]] Hs. simpl. run.
  destruct c as [a|]; run; [|done].
  destruct (all_nodes || bool_decide (index ∈ indexes)); run;
    [|by apply IH].
  destruct (shape_at ns _ a Hs) as (l1 & l2 & nd & -> & _ & Hnd & _ & H2);
    [by apply Hs|].
  simpl in Hnd, H2. repeat (run; rewrite ?Hnd).
  apply IH. apply (shape_moved _ _ (next_node nd) Hs).
  intros b Eb. rewrite Eb in H2.
  apply dseg_from_Some in H2 as (l2' & _ & -> & _).
  rewrite elem_of_app, !elem_of_cons. auto.
Qed.

Lemma gather_node_data_shape ns fuel indexes all_nodes :
  safe (shape ns) (gather_node_data fuel indexes all_nodes).
Proof.
  intros [st out [h t c n]] Hs. unfold gather_node_data. run.
  apply gather_node_data_loop_shape.
  apply (shape_moved _ _ h Hs (shape_head _ _ Hs)).
Qed.

Lemma display_nodes_loop_shape ns l :
  safe (shape ns) (display_nodes_loop l).
Proof.
  induction l as [|[index x] l IH]; [by intros s Hs|].
  intros [st out [h t c n]] Hs. simpl. run.
  destruct c as [a|]; run; [|done].
  destruct (shape_at ns _ a Hs) as (_ & _ & nd & _ & _ & Hnd & _);
    [by apply Hs|].
  simpl in Hnd. rewrite Hnd. run. by apply IH.
Qed.

Lemma display_nodes_shape ns fuel indexes all_nodes :
  safe (shape ns) (display_nodes fuel indexes all_nodes).
Proof.
  intros s Hs. unfold display_nodes, bind.
  apply (gather_node_data_shape ns fuel indexes all_nodes) in Hs.
  destruct (gather_node_data _ _ _ _) as [l s'| |]; [|done..].
  by apply display_nodes_loop_shape.
Qed.

Lemma NoDup_focus (l1 l2 : list nat) a :
  NoDup (l1 ++ a :: l2) ->
  (a ∉ l1) /\ (a ∉ l2) /\ NoDup (l1 ++ l2) /\ (forall x, x ∈ l1 -> x ∉ l2).
Proof.
  repeat (rewrite ?NoDup_app, ?NoDup_cons; simpl).
  repeat setoid_rewrite elem_of_cons. naive_solver.
Qed.

Lemma remove_node_Inv index : safe Inv (remove_node index).
Proof.
  intros [st out [h t c n]] (ns & Hs). unfold remove_node. run.
  destruct (set_current_index_cases ns _ index Hs)
    as [E|[E|(c1 & Hc1 & E)]]; rewrite E; run;
    [split; [done|by exists ns]| |].
  { split; [done|]. exists ns. by apply (shape_moved _ _ None Hs). }
  apply (shape_moved _ _ c1 Hs) in Hc1 as Hs1. simpl in Hs1. clear E.
  destruct c1 as [a|]; [|split; [done|by exists ns]].
  destruct (shape_at ns _ a Hs1) as (l1 & l2 & nd & -> & H1 & Hnd & Hp & H2);
    [by apply Hs1|].
  simpl in H1, Hnd, H2. rewrite Hnd. run.
  pose proof Hs1 as (Hd & Hdup & _ & Ht). simpl in Hd, Ht.
  apply lookup_lt_Some in Hnd as Ha.
  destruct (prev_node nd) as [p|] eqn:Ep; repeat (run; rewrite ?Hnd, ?Ep).
  - (* the node has a predecessor [p] *)
    destruct Hp as [?|Hp]; [done|]. symmetry in Hp.
    apply last_or_None_Some in Hp as (l1' & ->).
    apply dseg_focus in H1 as (H1 & ndp & Hndp & Hpp & Hpn). simpl in Hpn.
    apply lookup_lt_Some in Hndp as Hplt.
    rewrite <- app_assoc in Hdup, Ht. simpl in Hdup, Ht.
    assert (p <> a) as Hpa by by_NoDup Hdup.
    assert (forall x, tail (mkLinkedList h t (Some a) n) = Some x -> x <> p)
      as Htp.
    { intros x Hx ->. destruct (Ht p Hx) as (_ & Hlast).
      rewrite (Hlast ndp) in Hpn; [done| |done]. by_elem_of. }
    simpl in Htp.
    repeat (run; lk; rewrite ?Hnd, ?Ep, ?Hndp).
    destruct (next_node nd) as [b|] eqn:Eb.
    + (* and a successor [b] *)
      apply dseg_from_Some in H2 as (l2' & ndb & -> & Hndb & Hpb & H2).
      apply lookup_lt_Some in Hndb as Hblt.
      assert (b <> a /\ b <> p) as (Hba & Hbp) by by_NoDup Hdup.
      repeat (run; lk; rewrite ?Hnd, ?Ep, ?Hndp, ?Hndb, ?Eb).
      exists (l1' ++ p :: b :: l2')%list. unfold shape. simpl.
      split; [|split; [|split]].
      * apply dseg_focus. split.
        { apply (dseg_ext st); [|done]. intros x Hx.
          assert (x <> p /\ x <> b) as (? & ?) by by_NoDup (conj Hdup Hx).
          by lk. }
        eexists. split; [by lk|]. simpl. do 2 (split; [done|]).
        eexists. split; [by lk|]. simpl. split; [by right|].
        apply (dseg_ext st); [|done]. intros x Hx.
        assert (x <> p /\ x <> b) as (? & ?) by by_NoDup (conj Hdup Hx).
        by lk.
      * by_NoDup Hdup.
      * intros ? [= <-]. by_elem_of.
      * intros x Hx. destruct (Ht x Hx) as (Hlen & Hlast).
        rewrite !length_insert. split; [done|]. intros ndx Hin.
        specialize (Htp x Hx).
        destruct (decide (x = b)) as [->|Hxb]; lk.
        -- intros [= <-]. simpl. apply Hlast; [by_elem_of|done].
        -- apply Hlast. revert Hin. by_elem_of.
    + (* and no successor *)
      apply dseg_from_None in H2 as (-> & _).
      repeat (run; lk; rewrite ?Hnd, ?Ep, ?Hndp, ?Eb).
      exists (l1' ++ [p])%list. unfold shape. simpl.
      split; [|split; [|split]].
      * apply dseg_focus. split.
        { apply (dseg_ext st); [|done]. intros x Hx.
          assert (x <> p) by by_NoDup (conj Hdup Hx). by lk. }
        eexists. split; [by lk|]. simpl. done.
      * by_NoDup Hdup.
      * done.
      * intros x Hx. destruct (Ht x Hx) as (Hlen & Hlast).
        rewrite !length_insert. split; [done|]. intros ndx Hin.
        specialize (Htp x Hx). lk.
        apply Hlast. revert Hin. by_elem_of.
  - (* the node has no predecessor: the chain keeps it *)
    destruct (next_node nd) as [b|] eqn:Eb;
      repeat (run; lk; rewrite ?Hnd, ?Ep, ?Eb).
    + apply dseg_from_Some in H2 as (l2' & ndb & -> & Hndb & Hpb & H2).
      assert (b <> a) as Hba by by_NoDup Hdup.
      repeat (run; lk; rewrite ?Hnd, ?Ep, ?Hndb, ?Eb).
      exists (l1 ++ a :: b :: l2')%list.
      eapply (shape_write _ st); [|done|by right|done].
      apply (shape_moved _ _ (Some b) Hs1). intros ? [= <-]. by_elem_of.
    + exists (l1 ++ a :: l2)%list. by apply (shape_moved _ _ None Hs1).
Qed.

(** A store that agrees with [st] on the objects [st] has keeps the shape. *)
Lemma shape_ext ns st st' out l :
  shape ns (mkState st out l) ->
  (List.length st <= List.length st')%nat ->
  (forall x, (x < List.length st)%nat -> st' !! x = st !! x) ->
  shape ns (mkState st' out l).
Proof.
  intros (Hd & Hdup & Hc & Ht) Hlen Hagree. unfold shape in *. simpl in *.
  split; [|split; [done|split; [done|]]].
  - apply (dseg_ext st); [|done]. intros x Hx.
    apply Hagree. by eapply dseg_allocated.
  - intros t Et. destruct (Ht t Et) as (Ht1 & Hlast).
    split; [lia|]. intros ndx Hin. rewrite Hagree by done. eauto.
Qed.

Lemma insert_node_Inv d after index : safe Inv (insert_node d after index).
Proof.
  intros [st out [h t c n]] (ns & Hs0). unfold insert_node. run.
  assert (forall x, x ∈ ns -> (x < List.length st)%nat) as Hold.
  { intros x Hx. destruct Hs0 as (Hd' & _). by eapply dseg_allocated. }
  assert (forall x, t = Some x -> (x < List.length st)%nat) as Htl.
  { intros x Hx. by apply Hs0. }
  assert (shape ns
            (mkState (st ++ [mkNode d None None]) out
               (mkLinkedList h t c n))) as Hs.
  { apply (shape_ext _ st); [done|rewrite length_app; lia|].
    intros x Hx. by lk. }
  destruct (set_current_index_cases ns _ index Hs)
    as [E|[E|(c1 & Hc1 & E)]]; rewrite E; run;
    [split; [done|by exists ns]| |].
  { split; [done|]. exists ns. by apply (shape_moved _ _ None Hs). }
  apply (shape_moved _ _ c1 Hs0) in Hc1 as Hs1. simpl in Hs1. clear E Hs.
  pose proof Hs1 as (Hd & Hdup & _ & Ht). simpl in Hd, Ht.
  destruct (n =? 0) eqn:En; repeat (run; lk).
  - (* the list counts as empty *)
    exists [List.length st]. unfold shape. simpl.
    split; [|split; [|split]].
    + split; [done|]. eexists. split; [by lk|]. simpl. auto.
    + apply NoDup_singleton.
    + intros ? [= <-]. by_elem_of.
    + intros ? [= <-]. rewrite length_app. simpl. split; [lia|].
      intros ndx _. lk. by intros [= <-].
  - destruct after; repeat (run; lk).
    + (* insertion after the cursor *)
      destruct c1 as [a|]; repeat (run; lk).
      2:{ split; [done|]. exists ns. apply (shape_ext _ st);
            [done|rewrite length_insert, length_app; lia|].
          intros x Hx. by lk. }
      destruct (shape_at ns _ a Hs1)
        as (l1 & l2 & nd & -> & H1 & Hnd & Hp & H2); [by apply Hs1|].
      simpl in H1, Hnd, H2.
      assert (a < List.length st)%nat as Ha by (apply Hold; by_elem_of).
      assert (List.length st ∉ (l1 ++ a :: l2)%list) as Hfresh.
      { intros Hin. apply Hold in Hin. lia. }
      repeat (run; lk; rewrite ?Hnd).
      case_bool_decide as Etl; repeat (run; lk; rewrite ?Hnd).
      * (* the cursor is the tail *)
        assert (next_node nd = None) as En'.
        { apply (Ht a); [done|by_elem_of|done]. }
        rewrite En' in H2. apply dseg_from_None in H2 as (-> & _).
        exists (l1 ++ [a; List.length st])%list. unfold shape. simpl.
        split; [|split; [|split]].
        -- apply dseg_focus. split.
           { apply (dseg_ext st); [|done]. intros x Hx.
             assert (x <> a) by by_NoDup (conj Hdup Hx).
             assert (x < List.length st)%nat by (apply Hold; by_elem_of).
             by lk. }
           eexists. split; [by lk|]. simpl. split; [done|]. split; [done|].
           eexists. split; [by lk|]. simpl. rewrite En'. auto.
        -- by_NoDup (conj Hdup Hfresh).
        -- intros ? [= <-]. by_elem_of.
        -- intros ? [= <-]. rewrite !length_insert, length_app. simpl.
           split; [lia|]. intros ndx _. lk. by intros [= <-].
      * (* the cursor is not the tail *)
        destruct (next_node nd) as [b|] eqn:Eb;
          repeat (run; lk; rewrite ?Hnd, ?Eb).
        2:{ split; [done|].
            exists (l1 ++ a :: l2)%list. apply (shape_ext _ st);
              [done|rewrite !length_insert, length_app; lia|].
            intros x Hx. by lk. }
        apply dseg_from_Some in H2 as (l2' & ndb & -> & Hndb & Hpb & H2).
        assert (b < List.length st)%nat as Hb by (apply Hold; by_elem_of).
        assert (b <> a) as Hba by by_NoDup Hdup.
        repeat (run; lk; rewrite ?Hnd, ?Eb, ?Hndb).
        exists (l1 ++ a :: List.length st :: b :: l2')%list.
        unfold shape. simpl. split; [|split; [|split]].
        -- apply dseg_focus. split.
           { apply (dseg_ext st); [|done]. intros x Hx.
             assert (x <> a /\ x <> b) as (? & ?) by by_NoDup (conj Hdup Hx).
             assert (x < List.length st)%nat by (apply Hold; by_elem_of).
             by lk. }
           eexists. split; [by lk|]. simpl. split; [done|]. split; [done|].
           eexists. split; [by lk|]. simpl. split; [by right|].
           split; [done|].
           eexists. split; [by lk|]. simpl. split; [by right|].
           apply (dseg_ext st); [|done]. intros x Hx.
           assert (x <> a /\ x <> b) as (? & ?) by by_NoDup (conj Hdup Hx).
           assert (x < List.length st)%nat by (apply Hold; by_elem_of).
           by lk.
        -- by_NoDup (conj Hdup Hfresh).
        -- intros ? [= <-]. by_elem_of.
        -- intros x Hx. destruct (Ht x Hx) as (Hlen & Hlast).
           rewrite !length_insert, length_app. split; [lia|].
           intros ndx Hin.
           assert (x <> a) by (intros ->; by rewrite Hx in Etl).
           destruct (decide (x = b)) as [->|Hxb]; lk.
           ++ intros [= <-]. simpl. apply Hlast; [by_elem_of|done].
           ++ apply Hlast. revert Hin.
              repeat (rewrite ?elem_of_app, ?elem_of_cons). 
              intros [?|[?|[?|[?|?]]]]; auto; lia.
    + (* insertion before the cursor *)
      destruct c1 as [a|]; repeat (run; lk).
      2:{ split; [done|].
          exists ns. apply (shape_ext _ st); [done|rewrite length_app; lia|].
          intros x Hx. by lk. }
      destruct (shape_at ns _ a Hs1)
        as (l1 & l2 & nd & -> & H1 & Hnd & Hp & H2); [by apply Hs1|].
      simpl in H1, Hnd, H2.
      assert (a < List.length st)%nat as Ha by (apply Hold; by_elem_of).
      assert (List.length st ∉ (l1 ++ a :: l2)%list) as Hfresh.
      { intros Hin. apply Hold in Hin. lia. }
      repeat (run; lk; rewrite ?Hnd).
      case_bool_decide as Ehd; repeat (run; lk; rewrite ?Hnd).
      * (* the cursor is the head *)
        assert (l1 = []) as ->.
        { destruct l1 as [|x l1]; [done|]. destruct H1 as (Hh & _).
          rewrite Hh in Ehd. injection Ehd as ->. by_NoDup Hdup. }
        assert (prev_node nd = None) as Ep by (by destruct Hp).
        simpl in Hdup, Hfresh, Ht.
        exists (List.length st :: a :: l2). unfold shape. simpl.
        split; [|split; [|split]].
        -- split; [done|]. eexists. split; [by lk|]. simpl.
           split; [by left|]. split; [done|].
           eexists. split; [by lk|]. simpl. split; [by right|].
           apply (dseg_ext st); [|done]. intros x Hx.
           assert (x <> a) by by_NoDup (conj Hdup Hx).
           assert (x < List.length st)%nat by (apply Hold; by_elem_of).
           by lk.
        -- by_NoDup (conj Hdup Hfresh).
        -- intros ? [= <-]. by_elem_of.
        -- intros x Hx. destruct (Ht x Hx) as (Hlen & Hlast).
           rewrite !length_insert, length_app. split; [lia|].
           intros ndx Hin.
           destruct (decide (x = a)) as [->|Hxa]; lk.
           ++ intros [= <-]. simpl. apply Hlast; [by_elem_of|done].
           ++ apply Hlast. revert Hin.
              repeat (rewrite ?elem_of_app, ?elem_of_cons).
              intros [?|[?|?]]; auto; lia.
      * (* the cursor is not the head *)
        destruct (prev_node nd) as [p|] eqn:Ep;
          repeat (run; lk; rewrite ?Hnd, ?Ep).
        2:{ split; [done|].
            exists (l1 ++ a :: l2)%list. apply (shape_ext _ st);
              [done|rewrite !length_insert, length_app; lia|].
            intros x Hx. by lk. }
        destruct Hp as [?|Hp]; [done|]. symmetry in Hp.
        apply last_or_None_Some in Hp as (l1' & ->).
        apply dseg_focus in H1 as (H1 & ndp & Hndp & Hpp & Hpn).
        simpl in Hpn.
        rewrite <- app_assoc in Hdup, Ht, Hfresh, Hold.
        simpl in Hdup, Ht, Hfresh, Hold.
        assert (p < List.length st)%nat as Hplt by (apply Hold; by_elem_of).
        assert (p <> a) as Hpa by by_NoDup Hdup.
        repeat (run; lk; rewrite ?Hnd, ?Ep, ?Hndp).
        exists (l1' ++ p :: List.length st :: a :: l2)%list.
        unfold shape. simpl. split; [|split; [|split]].
        -- apply dseg_focus. split.
           { apply (dseg_ext st); [|done]. intros x Hx.
             assert (x <> a /\ x <> p) as (? & ?) by by_NoDup (conj Hdup Hx).
             assert (x < List.length st)%nat by (apply Hold; by_elem_of).
             by lk. }
           eexists. split; [by lk|]. simpl. split; [done|]. split; [done|].
           eexists. split; [by lk|]. simpl. split; [by right|].
           split; [done|].
           eexists. split; [by lk|]. simpl. split; [by right|].
           apply (dseg_ext st); [|done]. intros x Hx.
           assert (x <> a /\ x <> p) as (? & ?) by by_NoDup (conj Hdup Hx).
           assert (x < List.length st)%nat by (apply Hold; by_elem_of).
           by lk.
        -- by_NoDup (conj Hdup Hfresh).
        -- intros ? [= <-]. by_elem_of.
        -- intros x Hx. destruct (Ht x Hx) as (Hlen & Hlast).
           rewrite !length_insert, length_app. split; [lia|].
           intros ndx Hin.
           assert (x <> p).
           { intros ->. rewrite (Hlast ndp) in Hpn; [done|by_elem_of|done]. }
           destruct (decide (x = a)) as [->|Hxa]; lk.
           ++ intros [= <-]. simpl. apply Hlast; [by_elem_of|done].
           ++ apply Hlast. revert Hin.
              repeat (rewrite ?elem_of_app, ?elem_of_cons).
              intros [?|[?|[?|[?|?]]]]; auto; lia.
Qed.

(** ** Every call keeps the invariant *)

Lemma safe_bind {A B} P (m : M A) (f : A -> M B) :
  safe P m -> (forall a, safe P (f a)) -> safe P (bind m f).
Proof.
  intros Hm Hf s Hs. unfold bind. specialize (Hm s Hs).
  destruct (m s) as [a s'| |]; [|done..]. by apply Hf.
Qed.

Lemma safe_ret {A} P (a : A) : safe P (ret a).
Proof. by intros s Hs. Qed.

Lemma safe_forget {A} P (m : M A) : safe P m -> safe P (forget m).
Proof.
  intros Hm. apply safe_bind; [done|]. intros _. apply safe_ret.
Qed.

Lemma safe_Inv {A} (m : M A) :
  (forall ns, safe (shape ns) m) -> safe Inv m.
Proof.
  intros Hm s (ns & Hs). specialize (Hm ns s Hs).
  destruct (m s); [by exists ns| |done].
  destruct Hm. split; [done|by exists ns].
Qed.

Lemma init_loop_Inv initial_data :
  forall index, safe Inv (init_loop index initial_data).
Proof.
  induction initial_data as [|d rest IH]; intros index; simpl.
  - apply safe_ret.
  - apply safe_bind; [|by intros _].
    destruct (index =? 0); apply insert_node_Inv.
Qed.

Lemma shape_blank st out : shape [] (mkState st out (mkLinkedList None None None 0)).
Proof. unfold shape. simpl. split; [done|]. split; [apply NoDup_nil_2|done]. Qed.

Lemma init_Inv initial_data s :
  match __init__ initial_data s with
  | Ok _ s' => Inv s'
  | Raise e s' => e <> Dangling /\ Inv s'
  | OutOfFuel => True
  end.
Proof.
  destruct s as [st out l]. unfold __init__. run.
  assert (Inv (mkState st out (mkLinkedList None None None 0))) as H.
  { eexists. apply shape_blank. }
  destruct initial_data as [[|d rest]|]; [done| |done].
  by apply (init_loop_Inv (d :: rest) 0).
Qed.

Lemma exec_Inv fuel c : safe Inv (exec fuel c).
Proof.
  destruct c; simpl.
  - intros s _. apply init_Inv.
  - apply safe_forget, at_head_Inv.
  - apply safe_forget, at_tail_Inv.
  - apply set_current_index_Inv.
  - apply safe_forget, insert_node_Inv.
  - apply safe_forget, modify_node_Inv.
  - apply safe_forget, remove_node_Inv.
  - apply safe_forget, previous_node_Inv.
  - apply safe_forget, next_node_Inv.
  - apply safe_forget, find_node_by_index_Inv.
  - apply safe_forget, find_node_by_data_Inv.
  - apply safe_forget, safe_Inv. intros ns.
    apply gather_node_data_shape.
  - apply safe_Inv. intros ns. apply display_nodes_shape.
Qed.

Lemma reachable_Inv s : reachable s -> Inv s.
Proof.
  induction 1 as [|s fuel c s' _ IH Hfinal].
  - eexists. apply shape_blank.
  - apply (exec_Inv fuel c) in IH.
    destruct (exec fuel c s); simpl in Hfinal; simplify_eq; [done|].
    by destruct IH.
Qed.

(** The exception [Dangling] of the model is never seen: every reference a
    call follows, in a state a program can reach, has its object. *)
Lemma reachable_no_Dangling s fuel c s' :
  reachable s -> exec fuel c s <> Raise Dangling s'.
Proof.
  intros Hr E. pose proof (exec_Inv fuel c s (reachable_Inv s Hr)) as H.
  rewrite E in H. by destruct H.
Qed.

(** A node of the chain is found by walking from [head]. *)
Lemma dseg_walk st pp o l i a :
  dseg st pp o l None -> l !! i = Some a -> walk st i o = Some a.
Proof.
  revert pp o i. induction l as [|b l IH]; intros pp o i; simpl; [done|].
  intros (-> & nd & Hnd & _ & H). destruct i as [|i]; simpl.
  - by intros [= ->].
  - rewrite Hnd. by eapply IH.
Qed.

Lemma Inv_cursor_ok s : Inv s -> cursor_ok s.
Proof.
  intros (ns & Hd & _ & Hc & _). unfold cursor_ok.
  destruct (current (self s)) as [a|]; [right|by left].
  exists a. split; [done|].
  destruct (list_elem_of_lookup_1 ns a (Hc a eq_refl)) as (i & Hi).
  exists i. by eapply dseg_walk.
Qed.

(** ** The cursor *)

(** C7, as stated, fails: the cursor is [None] on lists whose [length] is
    not 0.  On the list a, [gather_node_data(all_nodes=True)] returns
    [(0, "a")] and ends with [current] [None] and [length] 1; on the list
    a, b, [remove_node(1)] returns "b" and ends with [current] [None] and
    [length] 1. *)
Lemma cursor_None_on_nonempty_list :
  and_then (new_LinkedList (Some ["a"])) (gather_node_data 2 None true)
    = Ok [(0, "a")]
        (mkState [mkNode "a" None None] []
           (mkLinkedList (Some 0%nat) (Some 0%nat) None 1))
  /\
  and_then (new_LinkedList (Some ["a"; "b"])) (remove_node 1)
    = Ok "b"
        (mkState [mkNode "a" None None; mkNode "b" (Some 0%nat) None] []
           (mkLinkedList (Some 0%nat) (Some 1%nat) None 1))
  /\
  ~ (forall s, reachable s -> current (self s) = None -> length (self s) = 0).
Proof.
  split; [reflexivity|]. split; [reflexivity|]. intros H.
  assert (reachable
            (mkState [mkNode "a" None None] []
               (mkLinkedList (Some 0%nat) (Some 0%nat) None 1))) as Hr.
  { apply (reachable_call
             (mkState [mkNode "a" None None] []
                (mkLinkedList (Some 0%nat) (Some 0%nat) (Some 0%nat) 1))
             2 (call_gather_node_data None true)); [|reflexivity].
    apply (reachable_call boot 0 (call_init (Some ["a"])));
      [apply reachable_boot|reflexivity]. }
  specialize (H _ Hr eq_refl). discriminate H.
Qed.

(** C7, amended.  In every state a program can reach by calls that return
    or raise, the cursor is [None] or a node found by following [next_node]
    from [head]. *)
Theorem cursor_None_or_reachable_from_head s :
  reachable s -> cursor_ok s.
Proof. intros H. by apply Inv_cursor_ok, reachable_Inv. Qed.

Lemma cursor_None_or_reachable_from_head_witness :
  cursor_ok
    (mkState [mkNode "a" None (Some 1%nat); mkNode "b" (Some 0%nat) None] []
       (mkLinkedList (Some 0%nat) (Some 1%nat) (Some 1%nat) 2)).
Proof.
  apply cursor_None_or_reachable_from_head.
  apply (reachable_call boot 0 (call_init (Some ["a"; "b"])));
    [apply reachable_boot|reflexivity].
Defined.

(** ** Stepping forward at the tail *)

Lemma next_node_at_last s a nd :
  current (self s) = Some a -> store s !! a = Some nd ->
  next_node nd = None -> next_node_ s = Ok (Some a) s.
Proof.
  intros Hc Hnd Hn. unfold next_node_.
  repeat (run; rewrite ?Hc, ?Hnd, ?Hn). reflexivity.
Qed.

(** C9.  In every reachable state where the cursor is the tail, any number
    of calls of [next_node] return the tail each time, raise nothing and
    leave the state as it is. *)
Theorem next_node_at_tail_idempotent s t n :
  reachable s ->
  current (self s) = Some t -> tail (self s) = Some t ->
  repeat_call n next_node_ s = Ok (replicate n (Some t)) s.
Proof.
  intros (ns & Hs)%reachable_Inv Hc Ht.
  assert (t ∈ ns) as Hin by by apply Hs.
  destruct (shape_at ns s t Hs Hin) as (_ & _ & nd & _ & _ & Hnd & _).
  assert (next_node nd = None) as Hn.
  { destruct Hs as (_ & _ & _ & Htl). by apply (Htl t Ht). }
  induction n as [|n IH]; [reflexivity|].
  simpl. unfold bind at 1. rewrite (next_node_at_last s t nd) by done.
  unfold bind at 1. by rewrite IH.
Qed.

Lemma next_node_at_tail_idempotent_witness :
  repeat_call 3 next_node_
    (mkState [mkNode "a" None (Some 1%nat); mkNode "b" (Some 0%nat) None] []
       (mkLinkedList (Some 0%nat) (Some 1%nat) (Some 1%nat) 2))
  = Ok [Some 1%nat; Some 1%nat; Some 1%nat]
      (mkState [mkNode "a" None (Some 1%nat); mkNode "b" (Some 0%nat) None] []
         (mkLinkedList (Some 0%nat) (Some 1%nat) (Some 1%nat) 2)).
Proof.
  apply (next_node_at_tail_idempotent _ 1%nat 3); [|reflexivity..].
  apply (reachable_call boot 0 (call_init (Some ["a"; "b"])));
    [apply reachable_boot|reflexivity].
Defined.

(** ** What [remove_node] leaves alone *)

Lemma preserves_bind {A B} P (m : M A) (f : A -> M B) :
  preserves P m -> (forall a, preserves P (f a)) -> preserves P (bind m f).
Proof.
  intros Hm Hf s Hs. unfold bind. specialize (Hm s Hs).
  destruct (m s) as [a s'| |]; [|done..]. by apply Hf.
Qed.

Lemma preserves_ret {A} P (a : A) : preserves P (ret a).
Proof. by intros s Hs. Qed.

Section Frame.
Variable P : State -> Prop.
(** [P] only looks at [head] and [tail]. *)
Hypothesis P_frame :
  forall st out h t c n st' out' c' n',
    P (mkState st out (mkLinkedList h t c n)) ->
    P (mkState st' out' (mkLinkedList h t c' n')).

Lemma preserves_raise {A} e : preserves P (@raise A e).
Proof. by intros s Hs. Qed.

Lemma preserves_try {A} (m : M A) e :
  preserves P m -> preserves P (try_except_AttributeError m e).
Proof.
  intros Hm s Hs. unfold try_except_AttributeError. specialize (Hm s Hs).
  by destruct (m s) as [a s'|[]|].
Qed.

Lemma preserves_for_range k body :
  preserves P body -> preserves P (for_range k body).
Proof.
  intros Hb. induction k as [|k IH]; simpl; [apply preserves_ret|].
  by apply preserves_bind.
Qed.

Lemma preserves_deref o : preserves P (deref o).
Proof.
  intros s Hs. unfold deref. destruct o as [a|]; [|done].
  by destruct (store s !! a).
Qed.

Lemma preserves_write a nd : preserves P (write a nd).
Proof. intros [st out [h t c n]] Hs. simpl. by eapply P_frame. Qed.

Lemma preserves_get_current : preserves P get_current.
Proof. by intros s Hs. Qed.

Lemma preserves_get_head : preserves P get_head.
Proof. by intros s Hs. Qed.

Lemma preserves_get_length : preserves P get_length.
Proof. by intros s Hs. Qed.

Lemma preserves_set_current v : preserves P (set_current v).
Proof. intros [st out [h t c n]] Hs. simpl. by eapply P_frame. Qed.

Lemma preserves_set_length v : preserves P (set_length v).
Proof. intros [st out [h t c n]] Hs. simpl. by eapply P_frame. Qed.

Lemma remove_node_frame index : preserves P (remove_node index).
Proof.
  unfold remove_node, set_current_index, get_prev_node, get_next_node,
    get_data, set_prev_node, set_next_node.
  repeat first
    [ apply preserves_ret | apply preserves_raise
    | apply preserves_deref | apply preserves_write
    | apply preserves_get_current | apply preserves_get_head
    | apply preserves_get_length
    | apply preserves_set_current | apply preserves_set_length
    | apply preserves_try | apply preserves_for_range
    | apply preserves_bind; [|intros ?]
    | match goal with
      | |- preserves _ (if ?b then _ else _) => destruct b
      | |- preserves _ (match ?o with Some _ => _ | None => _ end) =>
          destruct o
      end ].
Qed.
End Frame.

(** ** Methods without a [while] loop always end *)

Lemma ends_ret {A} (a : A) : ends (ret a).
Proof. by intros s. Qed.

Lemma ends_raise {A} e : ends (@raise A e).
Proof. by intros s. Qed.

Lemma ends_bind {A B} (m : M A) (f : A -> M B) :
  ends m -> (forall a, ends (f a)) -> ends (bind m f).
Proof.
  intros Hm Hf s. unfold bind. specialize (Hm s).
  destruct (m s) as [a s'| |]; [apply Hf|done..].
Qed.

Lemma ends_try {A} (m : M A) e :
  ends m -> ends (try_except_AttributeError m e).
Proof.
  intros Hm s. unfold try_except_AttributeError. specialize (Hm s).
  by destruct (m s) as [a s'|[]|].
Qed.

Lemma ends_for_range k body : ends body -> ends (for_range k body).
Proof.
  intros Hb. induction k as [|k IH]; simpl; [apply ends_ret|].
  by apply ends_bind.
Qed.

Lemma ends_deref o : ends (deref o).
Proof.
  intros s. unfold deref. destruct o as [a|]; [|done].
  by destruct (store s !! a).
Qed.

Lemma ends_new_Node d : ends (new_Node d).
Proof. by intros s. Qed.

Lemma ends_with_self f : ends (with_self f).
Proof. by intros s. Qed.

Lemma ends_write a nd : ends (write a nd).
Proof. by intros s. Qed.

Lemma ends_get_head : ends get_head.
Proof. by intros s. Qed.

Lemma ends_get_tail : ends get_tail.
Proof. by intros s. Qed.

Lemma ends_get_current : ends get_current.
Proof. by intros s. Qed.

Lemma ends_get_length : ends get_length.
Proof. by intros s. Qed.

Ltac ends_tac :=
  unfold set_current_index, at_head, at_tail,
    get_prev_node, get_next_node, get_data,
    set_prev_node, set_next_node, set_data,
    set_head, set_tail, set_current, set_length;
  repeat first
    [ apply ends_ret | apply ends_raise | apply ends_deref
    | apply ends_write | apply ends_with_self | apply ends_new_Node
    | apply ends_get_head | apply ends_get_tail
    | apply ends_get_current | apply ends_get_length
    | apply ends_try | apply ends_for_range
    | apply ends_bind; [|intros ?]
    | match goal with
      | |- ends (if ?b then _ else _) => destruct b
      | |- ends (match ?o with Some _ => _ | None => _ end) => destruct o
      end ].

Lemma set_current_index_ends index : ends (set_current_index index).
Proof. ends_tac. Qed.

Lemma insert_node_ends d after index : ends (insert_node d after index).
Proof. unfold insert_node. ends_tac. Qed.

Lemma modify_node_ends new_data index : ends (modify_node new_data index).
Proof. unfold modify_node. ends_tac. Qed.

Lemma remove_node_ends index : ends (remove_node index).
Proof. unfold remove_node. ends_tac. Qed.

Lemma previous_node_ends : ends previous_node.
Proof. unfold previous_node. ends_tac. Qed.

Lemma next_node_ends : ends next_node_.
Proof. unfold next_node_. ends_tac. Qed.

Lemma find_node_by_index_ends index : ends (find_node_by_index index).
Proof. unfold find_node_by_index. ends_tac. Qed.

Lemma init_loop_ends initial_data :
  forall index, ends (init_loop index initial_data).
Proof.
  induction initial_data as [|d rest IH]; intros index; simpl.
  - apply ends_ret.
  - apply ends_bind; [|by intros _].
    destruct (index =? 0); apply insert_node_ends.
Qed.

Lemma init_ends initial_data : ends (__init__ initial_data).
Proof.
  unfold __init__, set_head, set_tail, set_current, set_length.
  do 4 (apply ends_bind; [apply ends_with_self|intros _]).
  destruct initial_data as [[|d rest]|];
    [apply ends_ret|apply init_loop_ends|apply ends_ret].
Qed.

(** X1.  [remove_node] assigns neither [head] nor [tail]: whatever the
    state and the index, it returns or raises, and both are what they
    were. *)
Lemma remove_node_keeps_head_tail index s :
  match remove_node index s with
  | Ok _ s' | Raise _ s' =>
      head (self s') = head (self s) /\ tail (self s') = tail (self s)
  | OutOfFuel => False
  end.
Proof.
  pose proof (remove_node_frame
    (fun s' => head (self s') = head (self s) /\ tail (self s') = tail (self s)))
    as H.
  specialize (H (fun _ _ _ _ _ _ _ _ _ _ H => H) index s (conj eq_refl eq_refl)).
  pose proof (remove_node_ends index s).
  by destruct (remove_node index s).
Qed.

(** ** Lists built by the constructor *)

Lemma gather_node_data_loop_all st out h t n indexes l :
  forall pp o values index list_data k,
  dseg st pp o l None ->
  Forall2 (holds st) l values ->
  gather_node_data_loop (S (List.length l) + k) indexes true index list_data
    (mkState st out (mkLinkedList h t o n))
  = Ok (list_data ++ enumerate_from index values)%list
      (mkState st out (mkLinkedList h t None n)).
Proof.
  induction l as [|a l IH]; intros pp o values index list_data k Hd Hv.
  - apply Forall2_nil_inv_l in Hv as ->. simpl in Hd. subst o.
    rewrite gather_node_data_loop_done by done. simpl.
    by rewrite app_nil_r.
  - apply Forall2_cons_inv_l in Hv as (v & rest & (nd & Hnd & <-) & Hv & ->).
    destruct Hd as (-> & nd' & Hnd' & _ & Hd). simplify_eq.
    change (S (List.length (a :: l)) + k)%nat
      with (S (S (List.length l) + k)).
    erewrite gather_node_data_loop_take by done. run.
    erewrite IH by done. simpl. by rewrite <- app_assoc.
Qed.

Lemma gather_node_data_all values s indexes k :
  represents values s ->
  gather_node_data (S (List.length values) + k) indexes true s
  = Ok (enumerate_from 0 values) (moved None s).
Proof.
  intros (ns & (Hd & _) & Hv & _). destruct s as [st out [h t c n]].
  unfold gather_node_data. run. simpl in Hd, Hv.
  rewrite <- (Forall2_length _ _ _ Hv).
  by erewrite gather_node_data_loop_all.
Qed.

Lemma represents_nil st out :
  represents [] (mkState st out (mkLinkedList None None None 0)).
Proof.
  exists []. split; [apply shape_blank|]. by split; [constructor|].
Qed.

Lemma insert_node_first d st out :
  exists s',
    insert_node d false 0 (mkState st out (mkLinkedList None None None 0))
      = Ok (Some (List.length st)) s' /\
    represents [d] s'.
Proof.
  eexists. split; [reflexivity|].
  exists [List.length st]. unfold shape. simpl.
  split; [|split; [|split; [done|split; [done|]]]].
  - split; [|split; [|split]].
    + split; [done|]. eexists. split; [by lk|]. simpl. auto.
    + apply NoDup_singleton.
    + intros ? [= <-]. by_elem_of.
    + intros ? [= <-]. rewrite length_app. simpl. split; [lia|].
      intros ndx _. lk. by intros [= <-].
  - constructor; [|constructor]. eexists. by lk.
  - intros [|i] a nd; simpl; [|done]. intros [= <-]. lk. by intros [= <-].
Qed.

Lemma insert_node_append d values s :
  represents values s -> values <> [] ->
  exists s',
    insert_node d true (Z.of_nat (List.length values) - 1) s
      = Ok (Some (List.length (store s))) s' /\
    represents (values ++ [d]) s'.
Proof.
  destruct s as [st out [h t c n]].
  intros (ns & Hs0 & Hv & Htl & Hlen & Hback) Hne.
  simpl in Hv, Htl, Hlen, Hback |- *.
  apply Forall2_length in Hv as Hvl.
  destruct (last ns) as [a|] eqn:Ela.
  2:{ apply last_None in Ela as ->. by destruct values. }
  apply last_Some in Ela as (l1 & ->).
  rewrite length_app in Hvl, Hlen. simpl in Hvl, Hlen.
  assert (forall x, x ∈ (l1 ++ [a])%list -> (x < List.length st)%nat) as Hold.
  { intros x Hx. destruct Hs0 as (Hd' & _). by eapply dseg_allocated. }
  assert (shape (l1 ++ [a])
            (mkState (st ++ [mkNode d None None]) out
               (mkLinkedList h t c n))) as Hs.
  { apply (shape_ext _ st); [done|rewrite length_app; lia|].
    intros x Hx. by lk. }
  unfold insert_node. run.
  rewrite (set_current_index_walk _ _ _ _ _ _ (proj1 Hs)).
  rewrite Z.gtb_ltb, (proj2 (Z.ltb_ge _ _)) by lia.
  rewrite andb_false_r, decide_True by (rewrite length_app; simpl; lia).
  replace (Z.to_nat (Z.of_nat (List.length values) - 1))
    with (List.length l1 + 0)%nat by lia.
  rewrite lookup_app_r, Nat.add_comm, Nat.add_sub by lia. simpl. run.
  replace (n =? 0) with false by (symmetry; apply Z.eqb_neq; lia).
  pose proof Hs0 as (Hd & Hdup & _ & Ht). simpl in Hd, Ht.
  apply dseg_focus in Hd as (H1 & nd & Hnd & Hp & H2). simpl in H2.
  assert (a < List.length st)%nat as Ha by (apply Hold; by_elem_of).
  assert (List.length st ∉ (l1 ++ [a])%list) as Hfresh.
  { intros Hin. apply Hold in Hin. lia. }
  repeat (run; lk; rewrite ?Hnd, ?H2, ?Htl, ?bool_decide_eq_true_2 by done).
  eexists. split; [reflexivity|].
  exists (l1 ++ [a; List.length st])%list. simpl.
  split; [|split; [|split; [|split]]].
  - unfold shape. simpl. split; [|split; [|split]].
    + apply dseg_focus. split.
      { apply (dseg_ext st); [|done]. intros x Hx.
        assert (x <> a) by by_NoDup (conj Hdup Hx).
        assert (x < List.length st)%nat by (apply Hold; by_elem_of).
        by lk. }
      eexists. split; [by lk|]. simpl. split; [done|]. split; [done|].
      eexists. split; [by lk|]. simpl. auto.
    + by_NoDup (conj Hdup Hfresh).
    + intros ? [= <-]. by_elem_of.
    + intros ? [= <-]. rewrite !length_insert, length_app. simpl.
      split; [lia|]. intros ndx _. lk. by intros [= <-].
  - replace (l1 ++ [a; List.length st])%list
      with ((l1 ++ [a]) ++ [List.length st])%list by by rewrite <- app_assoc.
    apply Forall2_app.
    + eapply Forall2_impl; [exact Hv|]. intros x v (ndx & Hx & <-).
      apply lookup_lt_Some in Hx as Hxlt.
      destruct (decide (x = a)) as [->|Hxa].
      * eexists. split; [by lk|]. simpl. by simplify_eq.
      * exists ndx. split; [by lk|done].
    + constructor; [|constructor]. eexists. by lk.
  - by rewrite last_app_cons.
  - rewrite !length_app. simpl. lia.
  - intros i x ndx.
    replace (l1 ++ [a; List.length st])%list
      with ((l1 ++ [a]) ++ [List.length st])%list by by rewrite <- app_assoc.
    destruct (decide (i < List.length (l1 ++ [a]))%nat) as [Hi|Hi].
    + rewrite lookup_app_l by done. intros Ex Hndx.
      assert (x < List.length st)%nat
        by (eapply Hold, list_elem_of_lookup_2, Ex).
      assert (prev_node ndx =
              match i with O => None | S j => (l1 ++ [a])%list !! j end)
        as ->.
      { revert Hndx. destruct (decide (x = a)) as [->|Hxa]; lk.
        - intros [= <-]. simpl. by apply (Hback i a).
        - by apply Hback. }
      destruct i as [|j]; [done|]. symmetry. apply lookup_app_l. lia.
    + rewrite lookup_app_r by lia.
      destruct (i - List.length (l1 ++ [a]))%nat as [|?] eqn:Ei; [|done].
      intros [= <-]. lk. intros [= <-]. simpl.
      rewrite length_app in Hi, Ei. simpl in Hi, Ei.
      replace i with (S (List.length l1)) by lia.
      rewrite lookup_app_l by (rewrite length_app; simpl; lia).
      by rewrite list_lookup_middle.
Qed.

Lemma represents_nil_inv s :
  represents [] s ->
  s = mkState (store s) (stdout s) (mkLinkedList None None None 0).
Proof.
  destruct s as [st out [h t c n]].
  intros (ns & (Hd & _ & Hc & _) & Hv & Htl & Hlen & _). simpl in *.
  apply Forall2_nil_inv_r in Hv as ->. simpl in *. subst.
  destruct c as [a|]; [|done].
  by destruct (not_elem_of_nil a (Hc a eq_refl)).
Qed.

Lemma init_loop_represents rest :
  forall values s,
  represents values s ->
  exists s',
    init_loop (Z.of_nat (List.length values)) rest s = Ok tt s' /\
    represents (values ++ rest) s'.
Proof.
  induction rest as [|d rest IH]; intros values s Hs; simpl.
  - exists s. by rewrite app_nil_r.
  - assert (exists a s1,
      (if Z.of_nat (List.length values) =? 0
       then insert_node d false 0
       else insert_node d true (Z.of_nat (List.length values) - 1)) s
        = Ok a s1 /\ represents (values ++ [d]) s1) as (a & s1 & E & Hs1).
    { destruct values as [|v values].
      - rewrite (represents_nil_inv s Hs). simpl.
        destruct (insert_node_first d (store s) (stdout s)) as (s1 & ? & ?).
        eauto.
      - destruct (insert_node_append d (v :: values) s) as (s1 & ? & ?);
          [done..|].
        replace (Z.of_nat (List.length (v :: values)) =? 0) with false
          by (symmetry; apply Z.eqb_neq; simpl; lia).
        eauto. }
    unfold bind. rewrite E.
    destruct (IH (values ++ [d])%list s1 Hs1) as (s' & E' & Hs').
    exists s'. rewrite <- app_assoc in Hs'. split; [|done].
    rewrite <- E'. f_equal. rewrite length_app. simpl. lia.
Qed.

Lemma represents_head values s :
  represents values s -> value_at s (head (self s)) = values !! 0%nat.
Proof.
  intros (ns & (Hd & _) & Hv & _). apply dseg_start in Hd. rewrite Hd.
  destruct Hv as [|a v ns values (nd & Hnd & <-) _]; [done|].
  simpl. by rewrite Hnd.
Qed.

Lemma represents_tail values s :
  represents values s -> value_at s (tail (self s)) = last values.
Proof.
  intros (ns & _ & Hv & -> & _ & _).
  induction Hv as [|a v ns values (nd & Hnd & <-) Hv IH]; [done|].
  destruct Hv as [|a' v' ns values _ _]; [|done].
  simpl. by rewrite Hnd.
Qed.

(** X2.  The general form of C8: for every sequence of payloads the
    constructor returns, the list it builds carries them from [head] to
    [tail] in the order given, [length] is their number, and
    [gather_node_data(all_nodes=True)] returns them numbered from 0. *)
Theorem constructor_represents values :
  exists s,
    new_LinkedList (Some values) = Ok tt s /\
    represents values s /\
    value_at s (head (self s)) = values !! 0%nat /\
    value_at s (tail (self s)) = last values /\
    length (self s) = Z.of_nat (List.length values) /\
    forall indexes k,
      gather_node_data (S (List.length values) + k) indexes true s
      = Ok (enumerate_from 0 values) (moved None s).
Proof.
  assert (exists s, new_LinkedList (Some values) = Ok tt s /\
                    represents values s) as (s & E & Hs).
  { unfold new_LinkedList, __init__, boot. run.
    destruct (init_loop_represents values [] _ (represents_nil [] []))
      as (s & E & Hs).
    exists s. split; [|done]. by destruct values. }
  exists s. split; [done|]. split; [done|].
  split; [by apply represents_head|]. split; [by apply represents_tail|].
  split.
  - destruct Hs as (ns & _ & Hv & _ & -> & _).
    by rewrite (Forall2_length _ _ _ Hv).
  - intros indexes k. by apply gather_node_data_all.
Qed.

(** ** [find_node_by_index] on a list of known content *)

Section FindByIndex.
Variables (values : list string) (s : State) (index : Z).
Hypothesis Hrep : represents values s.

(** Inside the list the node found carries the payload of that position
    (a negative index walks no step and finds the head). *)
Lemma find_node_by_index_in_range v :
  values !! Z.to_nat index = Some v ->
  exists a,
    find_node_by_index index s = Ok (Some a) (moved (Some a) s) /\
    holds (store s) a v.
Proof.
  destruct Hrep as (ns & (Hd & _) & Hv & _). destruct s as [st out [h t c n]].
  simpl in Hd, Hv. rewrite (find_node_by_index_walk _ _ _ _ _ _ Hd).
  intros Ev. destruct (Forall2_lookup_r _ _ _ _ _ Hv Ev) as (a & Ea & Ha).
  apply lookup_lt_Some in Ea as Hlt.
  rewrite decide_True, Ea by lia. eauto.
Qed.

(** One past the end, nothing is raised: the walk steps onto [None] and
    returns it (the general form of C6's failing input). *)
Lemma find_node_by_index_at_length :
  Z.to_nat index = List.length values ->
  find_node_by_index index s = Ok None (moved None s).
Proof.
  destruct Hrep as (ns & (Hd & _) & Hv & _). destruct s as [st out [h t c n]].
  simpl in Hd, Hv. rewrite (find_node_by_index_walk _ _ _ _ _ _ Hd).
  intros E. apply Forall2_length in Hv.
  rewrite decide_True, lookup_ge_None_2 by lia. reflexivity.
Qed.

(** From two past the end on, the error is raised. *)
Lemma find_node_by_index_beyond :
  (List.length values < Z.to_nat index)%nat ->
  find_node_by_index index s
    = Raise (LinkedListError "Index is out of bounds") (moved None s).
Proof.
  destruct Hrep as (ns & (Hd & _) & Hv & _). destruct s as [st out [h t c n]].
  simpl in Hd, Hv. rewrite (find_node_by_index_walk _ _ _ _ _ _ Hd).
  intros E. apply Forall2_length in Hv.
  rewrite decide_False by lia. reflexivity.
Qed.
End FindByIndex.

(** ** The loops end on the lists a program can build *)

Lemma find_node_by_data_loop_ends st out h t n d l :
  forall pp o k,
  dseg st pp o l None ->
  find_node_by_data_loop (S (List.length l) + k) d
    (mkState st out (mkLinkedList h t o n)) <> OutOfFuel.
Proof.
  induction l as [|a l IH]; intros pp o k Hd.
  - simpl in Hd. subst o. by simpl.
  - destruct Hd as (-> & nd & Hnd & _ & Hd).
    change (S (List.length (a :: l)) + k)%nat
      with (S (S (List.length l) + k)).
    simpl. repeat (run; rewrite ?Hnd).
    destruct (String.eqb (data nd) d); repeat (run; rewrite ?Hnd); [done|].
    by eapply IH.
Qed.

Lemma find_node_by_data_ends s d :
  Inv s -> exists fuel, forall k, find_node_by_data (fuel + k) d s <> OutOfFuel.
Proof.
  intros (ns & Hd & _). exists (S (List.length ns)). intros k.
  destruct s as [st out [h t c n]]. unfold find_node_by_data. run.
  pose proof (find_node_by_data_loop_ends st out h t n d ns None h k Hd).
  by destruct (find_node_by_data_loop _ _ _).
Qed.

Lemma gather_node_data_loop_all_ends st out h t n indexes l :
  forall pp o index list_data k,
  dseg st pp o l None ->
  gather_node_data_loop (S (List.length l) + k) indexes true index list_data
    (mkState st out (mkLinkedList h t o n)) <> OutOfFuel.
Proof.
  induction l as [|a l IH]; intros pp o index list_data k Hd.
  - simpl in Hd. subst o. by simpl.
  - destruct Hd as (-> & nd & Hnd & _ & Hd).
    change (S (List.length (a :: l)) + k)%nat
      with (S (S (List.length l) + k)).
    erewrite gather_node_data_loop_take by done. run. by eapply IH.
Qed.

(** With [all_nodes] true, [gather_node_data] does return. *)
Lemma gather_node_data_all_nodes_ends s indexes :
  Inv s ->
  exists fuel, forall k,
    gather_node_data (fuel + k) indexes true s <> OutOfFuel.
Proof.
  intros (ns & Hd & _). exists (S (List.length ns)). intros k.
  destruct s as [st out [h t c n]]. unfold gather_node_data. run.
  by eapply gather_node_data_loop_all_ends.
Qed.

(** ** Removing a node that is not the head *)

(** The part of C5 the code does: on a list that stands for [values], for
    every index from 1 on, [remove_node] returns the payload at that index
    and takes 1 from [length]; and when there was a node after it,
    [find_node_by_index] of the same index then finds that node. *)
Theorem remove_node_after_head values s i v :
  represents values s -> (1 <= i)%nat -> values !! i = Some v ->
  exists s',
    remove_node (Z.of_nat i) s = Ok v s' /\
    length (self s') = length (self s) - 1 /\
    forall w, values !! S i = Some w ->
      exists b,
        find_node_by_index (Z.of_nat (S i)) s = Ok (Some b) (moved (Some b) s) /\
        find_node_by_index (Z.of_nat i) s' = Ok (Some b) (moved (Some b) s') /\
        holds (store s') b w.
Proof.
  destruct s as [st out [h t c n]].
  intros (ns & Hs & Hv & Htl & Hlen & Hback) Hi Ev.
  simpl in Hv, Htl, Hlen, Hback.
  destruct (Forall2_lookup_r _ _ _ _ _ Hv Ev) as (a & Ea & nd & Hnd & <-).
  apply lookup_lt_Some in Ea as Hlt.
  pose proof Hs as (Hd & Hdup & _ & Ht). simpl in Hd, Ht.
  unfold remove_node. run.
  rewrite (set_current_index_walk _ _ _ _ _ _ Hd).
  rewrite Z.gtb_ltb, (proj2 (Z.ltb_ge _ _)), andb_false_r by lia.
  rewrite Nat2Z.id, decide_True, Ea by lia. run.
  (* the chain around the node *)
  destruct i as [|j]; [lia|].
  pose proof (Hback _ _ _ Ea Hnd) as Ep. simpl in Ep.
  destruct (ns !! j) as [p|] eqn:Ej.
  2:{ apply lookup_ge_None in Ej. lia. }
  assert (ns = (take j ns ++ [p]) ++ a :: drop (S (S j)) ns)%list as Ens.
  { rewrite <- (take_S_r _ _ _ Ej). symmetry. by apply take_drop_middle. }
  assert (List.length (take j ns) = j) as Hlj by (rewrite length_take; lia).
  revert Ens Hlj. generalize (take j ns) (drop (S (S j)) ns).
  intros l1 l2 -> <-. clear Ea Ej.
  apply dseg_focus in Hd as (H1 & nd' & Hnd' & _ & H2).
  rewrite Hnd in Hnd'. injection Hnd' as <-.
  apply dseg_focus in H1 as (H1 & ndp & Hndp & Hpp & Hpn). simpl in Hpn.
  rewrite <- app_assoc in Hdup, Ht, Hv, Hs. simpl in Hdup, Ht, Hv, Hs.
  assert (p <> a) as Hpa by by_NoDup Hdup.
  apply lookup_lt_Some in Hnd as Ha. apply lookup_lt_Some in Hndp as Hp.
  repeat (run; lk; rewrite ?Hnd, ?Ep, ?Hndp).
  destruct (next_node nd) as [b|] eqn:Eb.
  - apply dseg_from_Some in H2 as (l2' & ndb & -> & Hndb & Hpb & H2).
    apply lookup_lt_Some in Hndb as Hblt.
    assert (b <> a /\ b <> p) as (Hba & Hbp) by by_NoDup Hdup.
    repeat (run; lk; rewrite ?Hnd, ?Ep, ?Hndp, ?Hndb, ?Eb).
    eexists. split; [reflexivity|]. split; [reflexivity|].
    intros w Ew. exists b.
    destruct (Forall2_lookup_r _ _ _ _ _ Hv Ew) as (b' & Eb' & ndb' & Hb' & Hw).
    replace (S (S (List.length l1))) with (List.length (l1 ++ [p; a]))%nat
      in Eb' by (rewrite length_app; simpl; lia).
    replace (l1 ++ p :: a :: b :: l2')%list
      with ((l1 ++ [p; a]) ++ b :: l2')%list in Eb'
      by (by rewrite <- app_assoc).
    rewrite list_lookup_middle in Eb' by done. injection Eb' as <-.
    rewrite Hndb in Hb'. injection Hb' as <-.
    split; [|split].
    + rewrite (find_node_by_index_walk _ _ _ _ _ _ (proj1 Hs)).
      rewrite Nat2Z.id, decide_True by (rewrite length_app; simpl; lia).
      replace (l1 ++ p :: a :: b :: l2')%list
        with ((l1 ++ [p; a]) ++ b :: l2')%list by (by rewrite <- app_assoc).
      by rewrite list_lookup_middle by (rewrite length_app; simpl; lia).
    + match goal with |- find_node_by_index _ (mkState ?st' _ _) = _ =>
        assert (dseg st' None h (l1 ++ p :: b :: l2') None) as Hd'
      end.
      { apply dseg_focus. split.
        { apply (dseg_ext st); [|done]. intros x Hx.
          assert (x <> p /\ x <> b) as (? & ?) by by_NoDup (conj Hdup Hx).
          by lk. }
        eexists. split; [by lk|]. simpl. do 2 (split; [done|]).
        eexists. split; [by lk|]. simpl. split; [by right|].
        apply (dseg_ext st); [|done]. intros x Hx.
        assert (x <> p /\ x <> b) as (? & ?) by by_NoDup (conj Hdup Hx).
        by lk. }
      rewrite (find_node_by_index_walk _ _ _ _ _ _ Hd').
      rewrite Nat2Z.id, decide_True by (rewrite length_app; simpl; lia).
      replace (l1 ++ p :: b :: l2')%list
        with ((l1 ++ [p]) ++ b :: l2')%list by (by rewrite <- app_assoc).
      by rewrite list_lookup_middle by (rewrite length_app; simpl; lia).
    + eexists. split; [simpl; by lk|done].
  - apply dseg_from_None in H2 as (-> & _).
    repeat (run; lk; rewrite ?Hnd, ?Ep, ?Hndp, ?Eb).
    eexists. split; [reflexivity|]. split; [reflexivity|].
    intros w Ew.
    apply Forall2_length in Hv. apply lookup_lt_Some in Ew.
    rewrite <- Hv, length_app in Ew. simpl in Ew. lia.
Qed.

(** * The methods on lists of known content *)

Section Segments.
Implicit Types (st : list Node) (l : list nat) (pp o : option nat).

Lemma dlseg_dseg st pp o l values o' :
  dlseg st pp o l values o' -> dseg st pp o l o'.
Proof.
  revert pp o values. induction l as [|a l IH]; intros pp o values; simpl.
  - by intros (-> & _).
  - intros (-> & nd & v & vs & -> & Hnd & _ & Hp & H). split; [done|].
    exists nd. split; [done|]. split; [by right|]. by eapply IH.
Qed.

Lemma dlseg_length st pp o l values o' :
  dlseg st pp o l values o' -> List.length l = List.length values.
Proof.
  revert pp o values. induction l as [|a l IH]; intros pp o values; simpl.
  - by intros (_ & ->).
  - intros (_ & nd & v & vs & -> & _ & _ & _ & H). simpl. f_equal.
    by eapply IH.
Qed.

Lemma dlseg_holds st pp o l values o' :
  dlseg st pp o l values o' -> Forall2 (holds st) l values.
Proof.
  revert pp o values. induction l as [|a l IH]; intros pp o values; simpl.
  - intros (_ & ->). constructor.
  - intros (_ & nd & v & vs & -> & Hnd & Hv & _ & H).
    constructor; [by exists nd|by eapply IH].
Qed.

Lemma dlseg_back st pp o l values o' i a nd :
  dlseg st pp o l values o' -> l !! i = Some a -> st !! a = Some nd ->
  prev_node nd = match i with O => pp | S j => l !! j end.
Proof.
  revert pp o values i. induction l as [|b l IH]; intros pp o values i; simpl;
    [done|].
  intros (_ & nd' & v & vs & -> & Hnd' & _ & Hp & H).
  destruct i as [|i]; simpl.
  - intros [= ->] Hnd. by simplify_eq.
  - intros Hi Hnd. rewrite (IH _ _ _ _ H Hi Hnd). by destruct i.
Qed.

Lemma dseg_dlseg st pp o l values o' :
  dseg st pp o l o' -> Forall2 (holds st) l values ->
  (forall i a nd, l !! i = Some a -> st !! a = Some nd ->
     prev_node nd = match i with O => pp | S j => l !! j end) ->
  dlseg st pp o l values o'.
Proof.
  revert pp o values. induction l as [|a l IH]; intros pp o values; simpl.
  - intros -> Hv%Forall2_nil_inv_l _. done.
  - intros (-> & nd & Hnd & _ & H) Hv Hback.
    apply Forall2_cons_inv_l in Hv as (v & vs & (nd' & Hnd' & Hv) & Hvs & ->).
    simplify_eq. split; [done|]. exists nd, (data nd), vs.
    do 3 (split; [done|]). split; [exact (Hback 0%nat a nd eq_refl Hnd)|].
    apply IH; [done..|]. intros i b ndb Hi Hb.
    rewrite (Hback (S i) b ndb Hi Hb). by destruct i.
Qed.

Lemma dlseg_app st pp o l1 l2 values o' :
  dlseg st pp o (l1 ++ l2) values o' <->
  exists m v1 v2, values = (v1 ++ v2)%list /\
    dlseg st pp o l1 v1 m /\ dlseg st (last_or pp l1) m l2 v2 o'.
Proof.
  revert pp o values. induction l1 as [|a l1 IH]; intros pp o values; simpl.
  - split.
    + intros H. by exists o, [], values.
    + by intros (m & v1 & v2 & -> & (-> & ->) & H).
  - setoid_rewrite last_or_cons. split.
    + intros (-> & nd & v & vs & -> & Hnd & Hv & Hp & H).
      apply IH in H as (m & v1 & v2 & -> & H1 & H2).
      exists m, (v :: v1), v2. split; [done|]. split; [|done].
      split; [done|]. by exists nd, v, v1.
    + intros (m & v1 & v2 & -> & H1 & H2).
      destruct H1 as (-> & nd & v & vs & -> & Hnd & Hv & Hp & H1).
      split; [done|]. exists nd, v, (vs ++ v2)%list.
      do 4 (split; [done|]). apply IH. by exists m, vs, v2.
Qed.

Lemma dlseg_ext st st' pp o l values o' :
  (forall x, x ∈ l -> st' !! x = st !! x) ->
  dlseg st pp o l values o' -> dlseg st' pp o l values o'.
Proof.
  revert pp o values. induction l as [|a l IH]; intros pp o values Hagree;
    simpl; [done|].
  intros (-> & nd & v & vs & -> & Hnd & Hv & Hp & H). split; [done|].
  exists nd, v, vs. rewrite Hagree by (rewrite elem_of_cons; by left).
  do 4 (split; [done|]). apply IH; [|done].
  intros x Hx. apply Hagree. rewrite elem_of_cons. by right.
Qed.

(** Splitting a list at the node that carries a given payload. *)
Lemma dlseg_split st pp o l v1 v v2 o' :
  dlseg st pp o l (v1 ++ v :: v2) o' ->
  exists l1 a l2 nd,
    l = (l1 ++ a :: l2)%list /\ List.length l1 = List.length v1 /\
    dlseg st pp o l1 v1 (Some a) /\
    st !! a = Some nd /\ data nd = v /\ prev_node nd = last_or pp l1 /\
    dlseg st (Some a) (next_node nd) l2 v2 o'.
Proof.
  revert pp o l. induction v1 as [|w v1 IH]; intros pp o l; simpl.
  - destruct l as [|a l]; simpl; [by intros (_ & ?)|].
    intros (-> & nd & v' & vs & [= <- <-] & Hnd & Hv & Hp & H).
    exists [], a, l, nd. simpl. eauto 10.
  - destruct l as [|b l]; simpl; [by intros (_ & ?)|].
    intros (-> & nd & v' & vs & [= <- <-] & Hnd & Hv & Hp & H).
    apply IH in H as (l1 & a & l2 & nda & -> & Hl & H1 & Hnda & Hva & Hpa & H2).
    exists (b :: l1), a, l2, nda. rewrite last_or_cons. simpl.
    split; [done|]. split; [by f_equal|]. split; [|done].
    split; [done|]. exists nd, w, v1. eauto 10.
Qed.

(** Putting a list together around one node. *)
Lemma dlseg_join st pp o l1 a l2 v1 v2 o' nd :
  dlseg st pp o l1 v1 (Some a) ->
  st !! a = Some nd -> prev_node nd = last_or pp l1 ->
  dlseg st (Some a) (next_node nd) l2 v2 o' ->
  dlseg st pp o (l1 ++ a :: l2) (v1 ++ data nd :: v2) o'.
Proof.
  intros H1 Hnd Hp H2. apply dlseg_app. exists (Some a), v1, (data nd :: v2).
  split; [done|]. split; [done|]. simpl. split; [done|].
  exists nd, (data nd), v2. eauto 10.
Qed.

Lemma dlseg_end st pp o l values :
  dlseg st pp o l values None ->
  forall t nd, last l = Some t -> st !! t = Some nd -> next_node nd = None.
Proof.
  intros H t nd (l1 & ->)%last_Some Hnd.
  apply dlseg_app in H as (m & v1 & v2 & -> & _ & H). simpl in H.
  destruct H as (-> & nd' & v & vs & -> & Hnd' & _ & _ & H & _).
  by simplify_eq.
Qed.
End Segments.

Lemma represents_well_linked values s :
  represents values s <-> exists ns, well_linked ns values s.
Proof.
  split.
  - intros (ns & (Hd & Hdup & Hc & Ht) & Hv & Htl & Hlen & Hback).
    exists ns. split; [|done]. by apply dseg_dlseg.
  - intros (ns & Hd & Hdup & Htl & Hlen & Hc). exists ns.
    split; [|split; [by eapply dlseg_holds|split; [done|split; [done|]]]].
    + split; [by eapply dlseg_dseg|]. split; [done|]. split; [done|].
      intros t Ht. rewrite Htl in Ht.
      assert (t ∈ ns) as Hin.
      { apply last_Some in Ht as (l1 & ->). by_elem_of. }
      split; [by eapply dseg_allocated, Hin; eapply dlseg_dseg|].
      intros nd _ Hnd. by eapply dlseg_end.
    + intros i a nd. by eapply dlseg_back.
Qed.

(** The list a, b, c, for the examples below. *)
Lemma represents_abc : represents ["a"; "b"; "c"] abc.
Proof.
  apply represents_well_linked. exists [0; 1; 2]%nat.
  split; [|split; [|split; [done|split; [done|]]]].
  - simpl. split; [done|]. eexists _, _, _. do 5 (split; [done|]).
    eexists _, _, _. do 5 (split; [done|]).
    eexists _, _, _. by do 5 (split; [done|]).
  - compute_done.
  - intros ? [= <-]. by_elem_of.
Qed.

Lemma reachable_abc : reachable abc.
Proof.
  apply (reachable_call boot 0 (call_init (Some ["a"; "b"; "c"])));
    [apply reachable_boot|reflexivity].
Qed.

(** ** Moving the cursor to a node of the list *)

Lemma set_current_index_at ns values s i a :
  well_linked ns values s -> ns !! i = Some a ->
  set_current_index (Z.of_nat i) s = Ok tt (moved (Some a) s).
Proof.
  destruct s as [st out [h t c n]].
  intros (Hd & _ & _ & Hlen & _) Ea. simpl in Hd, Hlen.
  apply lookup_lt_Some in Ea as Hlt.
  rewrite (set_current_index_walk _ _ _ _ _ _ (dlseg_dseg _ _ _ _ _ _ Hd)).
  rewrite Z.gtb_ltb, (proj2 (Z.ltb_ge _ _)), andb_false_r by lia.
  by rewrite Nat2Z.id, decide_True, Ea by lia.
Qed.

Lemma find_node_by_index_at ns values s i :
  well_linked ns values s -> (i <= List.length ns)%nat ->
  find_node_by_index (Z.of_nat i) s = Ok (ns !! i) (moved (ns !! i) s).
Proof.
  destruct s as [st out [h t c n]].
  intros (Hd & _) Hi. simpl in Hd.
  rewrite (find_node_by_index_walk _ _ _ _ _ _ (dlseg_dseg _ _ _ _ _ _ Hd)).
  by rewrite Nat2Z.id, decide_True by lia.
Qed.

(** ** [modify_node] *)

(** X3.  On a list that stands for [v1 ++ v :: v2], [modify_node] at index
    [len v1] returns the node at that index, which then carries
    [new_data]; the list stands for [v1 ++ new_data :: v2] afterwards (no
    other payload and no link is touched), and the cursor is on the
    modified node: [find_node_by_index] of the same index returns it and
    changes nothing. *)
Theorem modify_node_replaces_payload v1 v v2 s new_data :
  represents (v1 ++ v :: v2) s ->
  exists a s',
    modify_node new_data (Z.of_nat (List.length v1)) s = Ok (Some a) s' /\
    represents (v1 ++ new_data :: v2) s' /\
    find_node_by_index (Z.of_nat (List.length v1)) s' = Ok (Some a) s' /\
    holds (store s') a new_data.
Proof.
  intros (ns & Hwl)%represents_well_linked.
  pose proof Hwl as (Hd & Hdup & Htl & Hlen & Hc).
  apply dlseg_split in Hd
    as (l1 & a & l2 & nd & -> & Hl & H1 & Hnd & Hv & Hp & H2).
  assert ((l1 ++ a :: l2)%list !! List.length v1 = Some a) as Ea.
  { rewrite <- Hl. by apply list_lookup_middle. }
  unfold modify_node. run.
  rewrite (set_current_index_at _ _ _ _ _ Hwl Ea).
  destruct s as [st out [h t c n]]. simpl in *.
  repeat (run; rewrite ?Hnd).
  exists a. eexists. split; [reflexivity|].
  apply lookup_lt_Some in Hnd as Ha.
  assert (well_linked (l1 ++ a :: l2) (v1 ++ new_data :: v2)
    (mkState (<[a:=mkNode new_data (prev_node nd) (next_node nd)]> st) out
       (mkLinkedList h t (Some a) n))) as Hwl'.
  { split; [|split; [done|split; [done|split; [done|]]]]; simpl.
    - apply (dlseg_join _ _ _ _ _ _ _ _ _
               (mkNode new_data (prev_node nd) (next_node nd))).
      + apply (dlseg_ext st); [|done]. intros x Hx.
        assert (x <> a) by by_NoDup (conj Hdup Hx). by lk.
      + by lk.
      + done.
      + apply (dlseg_ext st); [|done]. intros x Hx.
        assert (x <> a) by by_NoDup (conj Hdup Hx). by lk.
    - intros ? [= <-]. by_elem_of. }
  split; [apply represents_well_linked; by eexists|]. split.
  - rewrite <- Hl at 1.
    rewrite (find_node_by_index_at _ _ _ _ Hwl')
      by (rewrite length_app; simpl; lia).
    by rewrite list_lookup_middle.
  - eexists. split; [simpl; by lk|done].
Qed.

Lemma modify_node_replaces_payload_witness :
  exists a s',
    modify_node "x" 1 abc = Ok (Some a) s' /\
    represents ["a"; "x"; "c"] s' /\
    find_node_by_index 1 s' = Ok (Some a) s' /\
    holds (store s') a "x".
Proof.
  apply (modify_node_replaces_payload ["a"] "b" ["c"] abc "x").
  exact represents_abc.
Defined.

(** ** [insert_node] *)

Lemma dlseg_snoc st pp o l p values o' :
  dlseg st pp o (l ++ [p]) values o' <->
  exists vs ndp,
    values = (vs ++ [data ndp])%list /\ dlseg st pp o l vs (Some p) /\
    st !! p = Some ndp /\ prev_node ndp = last_or pp l /\
    next_node ndp = o'.
Proof.
  rewrite dlseg_app. simpl. split.
  - intros (m & v1 & v2 & -> & H1 & -> & nd & v & vs & -> & Hnd & <- & Hp
            & <- & ->).
    exists v1, nd. eauto 10.
  - intros (vs & ndp & -> & H1 & Hnd & Hp & Hn).
    exists (Some p), vs, [data ndp]. do 3 (split; [done|]).
    exists ndp, (data ndp), []. eauto 10.
Qed.

Lemma well_linked_allocated ns values s x :
  well_linked ns values s -> x ∈ ns -> (x < List.length (store s))%nat.
Proof.
  intros (Hd & _) Hx. eapply dseg_allocated; [|done]. by eapply dlseg_dseg.
Qed.

Lemma well_linked_alloc ns values st out l nd :
  well_linked ns values (mkState st out l) ->
  well_linked ns values (mkState (st ++ [nd]) out l).
Proof.
  intros Hwl. pose proof Hwl as (Hd & Hrest). split; [|done]. simpl in *.
  apply (dlseg_ext st); [|done]. intros x Hx.
  apply (well_linked_allocated _ _ _ _ Hwl) in Hx. simpl in Hx. by lk.
Qed.

Lemma last_insert_before (l1 l2 : list nat) x a :
  last (l1 ++ x :: a :: l2) = last (l1 ++ a :: l2).
Proof.
  rewrite !last_app_cons. change (x :: a :: l2) with ([x] ++ a :: l2)%list.
  by rewrite last_app_cons.
Qed.

(** X4.  On a list that stands for [v1 ++ v :: v2],
    [insert_node(d, after=False, index=len v1)] returns a new node carrying
    [d]; the list stands for [v1 ++ d :: v :: v2] afterwards ([head] is
    the new node when [v1] is empty, [length] is one more), and the cursor
    is on the new node, which is found at index [len v1]. *)
Theorem insert_node_before v1 v v2 s d :
  represents (v1 ++ v :: v2) s ->
  exists a s',
    insert_node d false (Z.of_nat (List.length v1)) s = Ok (Some a) s' /\
    represents (v1 ++ d :: v :: v2) s' /\
    find_node_by_index (Z.of_nat (List.length v1)) s' = Ok (Some a) s' /\
    holds (store s') a d.
Proof.
  intros (ns & Hwl0)%represents_well_linked.
  destruct s as [st out [h t c n]].
  pose proof (well_linked_alloc _ _ _ _ _ (mkNode d None None) Hwl0) as Hwl.
  pose proof Hwl0 as (Hd & Hdup & Htl & Hlen & Hc). simpl in Hd, Htl, Hlen, Hc.
  apply dlseg_split in Hd
    as (l1 & a & l2 & nd & -> & Hl & H1 & Hnd & Hv & Hp & H2).
  assert ((l1 ++ a :: l2)%list !! List.length v1 = Some a) as Ea.
  { rewrite <- Hl. by apply list_lookup_middle. }
  assert (forall x, x ∈ (l1 ++ a :: l2)%list -> (x < List.length st)%nat)
    as Hold.
  { intros x Hx. exact (well_linked_allocated _ _ _ _ Hwl0 Hx). }
  assert (a < List.length st)%nat as Ha by (apply Hold; by_elem_of).
  assert (List.length st ∉ (l1 ++ a :: l2)%list) as Hfresh.
  { intros Hin. apply Hold in Hin. lia. }
  rewrite length_app in Hlen. simpl in Hlen.
  unfold insert_node. run.
  rewrite (set_current_index_at _ _ _ _ _ Hwl Ea). run.
  replace (n =? 0) with false by (symmetry; apply Z.eqb_neq; lia).
  exists (List.length st).
  destruct l1 as [|q l1 _] using rev_ind.
  - (* the node is the head: the new node becomes the head *)
    destruct H1 as (-> & ->). simpl in Hp, Hl.
    repeat (run; lk; rewrite ?Hnd, ?Hp, ?bool_decide_eq_true_2 by done).
    eexists. split; [reflexivity|].
    match goal with |- represents _ ?s' /\ _ =>
      assert (well_linked (List.length st :: a :: l2) (d :: data nd :: v2) s')
        as Hwl'
    end.
    { split; [|split; [|split; [|split]]]; simpl.
      - split; [done|]. eexists _, d, _. split; [done|].
        split; [by lk|]. simpl. do 3 (split; [done|]).
        eexists _, _, _. split; [done|]. split; [by lk|]. simpl.
        do 2 (split; [done|]).
        apply (dlseg_ext st); [|done]. intros x Hx.
        assert (x <> a) by by_NoDup (conj Hdup Hx).
        assert (x < List.length st)%nat by (apply Hold; by_elem_of).
        by lk.
      - by_NoDup (conj Hdup Hfresh).
      - rewrite Htl. by destruct l2.
      - simpl in Hlen. lia.
      - intros ? [= <-]. by_elem_of. }
    subst v. split; [apply represents_well_linked; by eexists|]. split.
    + by rewrite (find_node_by_index_at _ _ _ _ Hwl') by (simpl; lia).
    + eexists. split; [simpl; by lk|done].
  - (* the node has a predecessor [q], whose successor becomes the new
       node *)
    apply dlseg_snoc in H1 as (vs & ndq & -> & H1 & Hndq & Hpq & Hnq).
    rewrite last_or_snoc in Hp.
    assert (q < List.length st)%nat as Hq by (apply Hold; by_elem_of).
    assert (q <> a) as Hqa by by_NoDup Hdup.
    assert (h <> Some a) as Hh.
    { intros ->. destruct l1 as [|x l1]; simpl in H1;
        destruct H1 as (E & _); simplify_eq; by_NoDup Hdup. }
    repeat (run; lk;
            rewrite ?Hnd, ?Hp, ?Hndq, ?bool_decide_eq_false_2 by congruence).
    eexists. split; [reflexivity|].
    match goal with |- represents _ ?s' /\ _ =>
      assert (well_linked ((l1 ++ [q]) ++ List.length st :: a :: l2)
                ((vs ++ [data ndq]) ++ d :: data nd :: v2) s') as Hwl'
    end.
    { split; [|split; [|split; [|split]]]; simpl.
      - apply (dlseg_join _ _ _ _ _ _ _ _ _
                 (mkNode d (Some q) (Some a))).
        + apply dlseg_snoc.
          exists vs, (mkNode (data ndq) (prev_node ndq)
                        (Some (List.length st))).
          split; [done|]. split; [|split; [by lk|done]].
          apply (dlseg_ext st); [|done]. intros x Hx.
          assert (x <> a /\ x <> q) as (? & ?) by by_NoDup (conj Hdup Hx).
          assert (x < List.length st)%nat by (apply Hold; by_elem_of).
          by lk.
        + by lk.
        + by rewrite last_or_snoc.
        + simpl. split; [done|]. eexists _, _, _. split; [done|].
          split; [by lk|]. simpl. do 2 (split; [done|]).
          apply (dlseg_ext st); [|done]. intros x Hx.
          assert (x <> a /\ x <> q) as (? & ?) by by_NoDup (conj Hdup Hx).
          assert (x < List.length st)%nat by (apply Hold; by_elem_of).
          by lk.
      - by_NoDup (conj Hdup Hfresh).
      - by rewrite Htl, last_insert_before.
      - rewrite ?length_app in Hlen. rewrite !length_app.
        simpl in Hlen |- *. lia.
      - intros ? [= <-]. by_elem_of. }
    subst v. split; [apply represents_well_linked; by eexists|]. split.
    + rewrite <- Hl.
      rewrite (find_node_by_index_at _ _ _ _ Hwl')
        by (rewrite !length_app; simpl; lia).
      by rewrite list_lookup_middle.
    + eexists. split; [simpl; by lk|done].
Qed.

Lemma insert_node_before_witness :
  exists a s',
    insert_node "x" false 1 abc = Ok (Some a) s' /\
    represents ["a"; "x"; "b"; "c"] s' /\
    find_node_by_index 1 s' = Ok (Some a) s' /\
    holds (store s') a "x".
Proof.
  apply (insert_node_before ["a"] "b" ["c"] abc "x").
  exact represents_abc.
Defined.

Lemma last_insert_after (l1 l2 : list nat) a x :
  last (l1 ++ a :: x :: l2) = last (l1 ++ x :: l2).
Proof.
  rewrite !last_app_cons. change (a :: x :: l2) with ([a] ++ x :: l2)%list.
  by rewrite last_app_cons.
Qed.

Lemma well_linked_lookup ns values s i a v :
  well_linked ns values s -> ns !! i = Some a -> values !! i = Some v ->
  holds (store s) a v.
Proof.
  intros (Hd & _) Ea Ev. apply dlseg_holds in Hd.
  by eapply Forall2_lookup_lr.
Qed.

Lemma well_linked_split ns v1 v v2 s :
  well_linked ns (v1 ++ v :: v2) s ->
  exists l1 a l2,
    ns = (l1 ++ a :: l2)%list /\ List.length l1 = List.length v1.
Proof.
  intros (Hd & _).
  apply dlseg_split in Hd as (l1 & a & l2 & nd & -> & Hl & _). eauto.
Qed.

(** Inserting after the node [a] of the list: the new node is the first
    unused address, it comes right after [a], and the cursor is on it. *)
Lemma insert_node_after_linked l1 a l2 v1 v v2 s d :
  well_linked (l1 ++ a :: l2) (v1 ++ v :: v2) s ->
  List.length l1 = List.length v1 ->
  exists s',
    insert_node d true (Z.of_nat (List.length v1)) s
      = Ok (Some (List.length (store s))) s' /\
    well_linked (l1 ++ a :: List.length (store s) :: l2)
      (v1 ++ v :: d :: v2) s' /\
    current (self s') = Some (List.length (store s)).
Proof.
  intros Hwl0 Hl.
  destruct s as [st out [h t c n]].
  pose proof (well_linked_alloc _ _ _ _ _ (mkNode d None None) Hwl0) as Hwl.
  pose proof Hwl0 as (Hd & Hdup & Htl & Hlen & Hc). simpl in Hd, Htl, Hlen, Hc.
  apply dlseg_split in Hd
    as (l1' & a' & l2' & nd & E & Hl' & H1 & Hnd & Hv & Hp & H2).
  apply app_inj_1 in E as (<- & [= <- <-]); [|congruence]. clear Hl'.
  assert ((l1 ++ a :: l2)%list !! List.length v1 = Some a) as Ea.
  { rewrite <- Hl. by apply list_lookup_middle. }
  assert (forall x, x ∈ (l1 ++ a :: l2)%list -> (x < List.length st)%nat)
    as Hold.
  { intros x Hx. exact (well_linked_allocated _ _ _ _ Hwl0 Hx). }
  assert (a < List.length st)%nat as Ha by (apply Hold; by_elem_of).
  assert (List.length st ∉ (l1 ++ a :: l2)%list) as Hfresh.
  { intros Hin. apply Hold in Hin. lia. }
  rewrite length_app in Hlen. simpl in Hlen.
  unfold insert_node. run.
  rewrite (set_current_index_at _ _ _ _ _ Hwl Ea). run.
  replace (n =? 0) with false by (symmetry; apply Z.eqb_neq; lia).
  destruct l2 as [|b l2].
  - (* the node is the tail: the new node becomes the tail *)
    destruct H2 as (Hn & ->). rewrite last_snoc in Htl.
    repeat (run; lk; rewrite ?Hnd, ?Hn, ?Htl, ?bool_decide_eq_true_2 by done).
    eexists. split; [reflexivity|].
    match goal with |- well_linked _ _ ?s' /\ _ =>
      assert (well_linked (l1 ++ [a; List.length st])
                (v1 ++ [data nd; d]) s') as Hwl'
    end.
    { split; [|split; [|split; [|split]]]; simpl.
      - apply (dlseg_join _ _ _ _ _ _ _ _ _
                 (mkNode (data nd) (prev_node nd) (Some (List.length st)))).
        + apply (dlseg_ext st); [|done]. intros x Hx.
          assert (x <> a) by by_NoDup (conj Hdup Hx).
          assert (x < List.length st)%nat by (apply Hold; by_elem_of).
          by lk.
        + by lk.
        + done.
        + simpl. split; [done|]. eexists _, _, _. split; [done|].
          split; [by lk|]. simpl. by rewrite ?Hn.
      - by_NoDup (conj Hdup Hfresh).
      - by rewrite last_app_cons.
      - rewrite !length_app. simpl in Hlen |- *. lia.
      - intros ? [= <-]. by_elem_of. }
    subst v. split; [|done].
    replace (l1 ++ [a; List.length st])%list
      with (l1 ++ a :: [List.length st])%list in Hwl' by done.
    exact Hwl'.
  - (* the node has a successor [b], whose predecessor becomes the new
       node *)
    destruct H2 as (Hn & ndb & vb & v2' & -> & Hndb & Hvb & Hpb & H2).
    assert (b < List.length st)%nat as Hb by (apply Hold; by_elem_of).
    assert (b <> a) as Hba by by_NoDup Hdup.
    assert (t <> Some a) as Ht.
    { rewrite Htl, last_app_cons. intros E.
      change (a :: b :: l2) with ([a] ++ b :: l2)%list in E.
      rewrite last_app_cons in E.
      assert (a ∈ b :: l2).
      { apply last_Some in E as (l' & ->). by_elem_of. }
      by_NoDup (conj Hdup H). }
    repeat (run; lk;
            rewrite ?Hnd, ?Hn, ?Hndb, ?bool_decide_eq_false_2 by congruence).
    eexists. split; [reflexivity|].
    match goal with |- well_linked _ _ ?s' /\ _ =>
      assert (well_linked (l1 ++ a :: List.length st :: b :: l2)
                (v1 ++ data nd :: d :: data ndb :: v2') s') as Hwl'
    end.
    { split; [|split; [|split; [|split]]]; simpl.
      - apply (dlseg_join _ _ _ _ _ _ _ _ _
                 (mkNode (data nd) (prev_node nd) (Some (List.length st)))).
        + apply (dlseg_ext st); [|done]. intros x Hx.
          assert (x <> a /\ x <> b) as (? & ?) by by_NoDup (conj Hdup Hx).
          assert (x < List.length st)%nat by (apply Hold; by_elem_of).
          by lk.
        + by lk.
        + done.
        + simpl. split; [done|]. eexists _, _, _. split; [done|].
          split; [by lk|]. simpl. do 3 (split; [done|]).
          eexists _, _, _. split; [done|]. split; [by lk|]. simpl.
          do 2 (split; [done|]).
          apply (dlseg_ext st); [|done]. intros x Hx.
          assert (x <> a /\ x <> b) as (? & ?) by by_NoDup (conj Hdup Hx).
          assert (x < List.length st)%nat by (apply Hold; by_elem_of).
          by lk.
      - by_NoDup (conj Hdup Hfresh).
      - by rewrite Htl, last_insert_after, !last_app_cons.
      - rewrite !length_app. simpl in Hlen |- *. lia.
      - intros ? [= <-]. by_elem_of. }
    subst v vb. by split.
Qed.

(** X5.  On a list that stands for [v1 ++ v :: v2],
    [insert_node(d, after=True, index=len v1)] returns a new node carrying
    [d]; the list stands for [v1 ++ v :: d :: v2] afterwards ([tail] is
    the new node when [v2] is empty, [length] is one more), and the cursor
    is on the new node, which is found at index [len v1 + 1]. *)
Theorem insert_node_after v1 v v2 s d :
  represents (v1 ++ v :: v2) s ->
  exists a s',
    insert_node d true (Z.of_nat (List.length v1)) s = Ok (Some a) s' /\
    represents (v1 ++ v :: d :: v2) s' /\
    find_node_by_index (Z.of_nat (S (List.length v1))) s' = Ok (Some a) s' /\
    holds (store s') a d.
Proof.
  intros (ns & Hwl)%represents_well_linked.
  destruct (well_linked_split _ _ _ _ _ Hwl) as (l1 & a & l2 & -> & Hl).
  destruct (insert_node_after_linked _ _ _ _ _ _ _ d Hwl Hl)
    as (s' & E & Hwl' & Hc).
  set (new := List.length (store s)) in *.
  assert ((l1 ++ a :: new :: l2)%list !! S (List.length v1) = Some new)
    as Enew.
  { rewrite <- Hl. rewrite lookup_app_r by lia.
    by replace (S (List.length l1) - List.length l1)%nat with 1%nat by lia. }
  exists new, s'. split; [done|].
  split; [apply represents_well_linked; by eexists|]. split.
  - rewrite (find_node_by_index_at _ _ _ _ Hwl'), Enew.
    + destruct s' as [st' out' [h' t' c' n']]. simpl in Hc. by subst c'.
    + apply lookup_lt_Some in Enew. lia.
  - apply (well_linked_lookup _ _ _ _ _ _ Hwl' Enew).
    rewrite lookup_app_r by lia.
    by replace (S (List.length v1) - List.length v1)%nat with 1%nat by lia.
Qed.

Lemma insert_node_after_witness :
  exists a s',
    insert_node "x" true 1 abc = Ok (Some a) s' /\
    represents ["a"; "b"; "x"; "c"] s' /\
    find_node_by_index 2 s' = Ok (Some a) s' /\
    holds (store s') a "x".
Proof.
  apply (insert_node_after ["a"] "b" ["c"] abc "x").
  exact represents_abc.
Defined.

(** ** [remove_node] inside the list *)

(** X6.  Removing a node that is neither the first nor the last works
    in full: on a list that stands for [v1 ++ v :: v2] with [v1] and [v2]
    not empty, [remove_node(len v1)] returns [v], the list stands for
    [v1 ++ v2] afterwards, and the cursor is on the node that followed the
    removed one, which is now found at index [len v1]. *)
Theorem remove_node_interior v1 v v2 s :
  represents (v1 ++ v :: v2) s -> v1 <> [] -> v2 <> [] ->
  exists b s',
    remove_node (Z.of_nat (List.length v1)) s = Ok v s' /\
    represents (v1 ++ v2) s' /\
    find_node_by_index (Z.of_nat (S (List.length v1))) s
      = Ok (Some b) (moved (Some b) s) /\
    find_node_by_index (Z.of_nat (List.length v1)) s' = Ok (Some b) s'.
Proof.
  intros (ns & Hwl)%represents_well_linked Hv1 Hv2.
  destruct s as [st out [h t c n]].
  pose proof Hwl as (Hd & Hdup & Htl & Hlen & Hc). simpl in Hd, Htl, Hlen, Hc.
  apply dlseg_split in Hd
    as (l1 & a & l2 & nd & -> & Hl & H1 & Hnd & Hv & Hp & H2).
  assert ((l1 ++ a :: l2)%list !! List.length v1 = Some a) as Ea.
  { rewrite <- Hl. by apply list_lookup_middle. }
  unfold remove_node. run.
  rewrite (set_current_index_at _ _ _ _ _ Hwl Ea). run.
  destruct l1 as [|p l1 _] using rev_ind.
  { destruct H1 as (_ & ->). done. }
  destruct l2 as [|b l2].
  { destruct H2 as (_ & ->). done. }
  apply dlseg_snoc in H1 as (vs & ndp & -> & H1 & Hndp & Hpp & Hnp).
  destruct H2 as (Hn & ndb & vb & v2' & -> & Hndb & Hvb & Hpb & H2).
  rewrite last_or_snoc in Hp.
  assert (p <> a /\ b <> a /\ b <> p) as (Hpa & Hba & Hbp) by by_NoDup Hdup.
  apply lookup_lt_Some in Hnd as Ha. apply lookup_lt_Some in Hndp as Hplt.
  apply lookup_lt_Some in Hndb as Hblt.
  repeat (run; lk; rewrite ?Hnd, ?Hp, ?Hn, ?Hndp, ?Hndb).
  exists b. eexists. split; [by rewrite Hv|].
  match goal with |- represents _ ?s' /\ _ =>
    assert (well_linked ((l1 ++ [p]) ++ b :: l2)
              ((vs ++ [data ndp]) ++ data ndb :: v2') s') as Hwl'
  end.
  { split; [|split; [|split; [|split]]]; simpl.
    - apply (dlseg_join _ _ _ _ _ _ _ _ _
               (mkNode (data ndb) (Some p) (next_node ndb))).
      + apply dlseg_snoc.
        exists vs, (mkNode (data ndp) (prev_node ndp) (Some b)).
        split; [done|]. split; [|split; [by lk|done]].
        apply (dlseg_ext st); [|done]. intros x Hx.
        assert (x <> p /\ x <> b) as (? & ?) by by_NoDup (conj Hdup Hx).
        by lk.
      + by lk.
      + by rewrite last_or_snoc.
      + apply (dlseg_ext st); [|done]. intros x Hx.
        assert (x <> p /\ x <> b) as (? & ?) by by_NoDup (conj Hdup Hx).
        by lk.
    - by_NoDup Hdup.
    - rewrite Htl, !last_app_cons.
      change (a :: b :: l2) with ([a] ++ b :: l2)%list.
      by rewrite last_app_cons.
    - rewrite ?length_app in Hlen. rewrite !length_app.
      simpl in Hlen |- *. lia.
    - intros ? [= <-]. by_elem_of. }
  subst vb. split; [apply represents_well_linked; by eexists|].
  rewrite <- Hl. split.
  - replace (S (List.length (l1 ++ [p])))
      with (List.length ((l1 ++ [p]) ++ [a]))
      by (rewrite !length_app; simpl; lia).
    rewrite (find_node_by_index_at _ _ _ _ Hwl)
      by (rewrite !length_app; simpl; lia).
    replace ((l1 ++ [p]) ++ a :: b :: l2)%list
      with (((l1 ++ [p]) ++ [a]) ++ b :: l2)%list
      by (by rewrite <- !app_assoc).
    by rewrite list_lookup_middle.
  - rewrite (find_node_by_index_at _ _ _ _ Hwl')
      by (rewrite !length_app; simpl; lia).
    by rewrite list_lookup_middle.
Qed.

Lemma remove_node_interior_witness :
  exists b s',
    remove_node 1 abc = Ok "b" s' /\
    represents ["a"; "c"] s' /\
    find_node_by_index 2 abc = Ok (Some b) (moved (Some b) abc) /\
    find_node_by_index 1 s' = Ok (Some b) s'.
Proof.
  apply (remove_node_interior ["a"] "b" ["c"] abc);
    [exact represents_abc|done..].
Defined.

(** ** [find_node_by_data] *)

Lemma find_node_by_data_loop_found st out h t n d :
  forall l1 v1 pp o k a nd,
  dlseg st pp o l1 v1 (Some a) -> d ∉ v1 ->
  st !! a = Some nd -> data nd = d ->
  find_node_by_data_loop (S (List.length l1) + k) d
    (mkState st out (mkLinkedList h t o n))
  = Ok tt (mkState st out (mkLinkedList h t (Some a) n)).
Proof.
  induction l1 as [|x l1 IH]; intros v1 pp o k a nd; simpl.
  - intros (-> & _) _ Hnd Hd. repeat (run; rewrite ?Hnd).
    by rewrite Hd, String.eqb_refl.
  - intros (-> & ndx & v & vs & -> & Hndx & Hv & _ & H) Hnot Hnd Hd.
    repeat (run; rewrite ?Hndx).
    replace (String.eqb (data ndx) d) with false.
    2:{ symmetry. apply String.eqb_neq. intros E. apply Hnot.
        rewrite elem_of_cons. left. congruence. }
    repeat (run; rewrite ?Hndx). eapply IH; [done| |done..].
    intros Hin. apply Hnot. rewrite elem_of_cons. by right.
Qed.


(** X7.  [find_node_by_data] finds the first node carrying the payload:
    on a list that stands for [v1 ++ d :: v2] where [d] is not in [v1], it
    returns the node at index [len v1] (the one [find_node_by_index] finds
    there) and leaves the cursor on it. *)
Theorem find_node_by_data_first_match v1 d v2 s k :
  represents (v1 ++ d :: v2) s -> d ∉ v1 ->
  exists a,
    find_node_by_data (S (List.length v1) + k) d s
      = Ok (Some a) (moved (Some a) s) /\
    find_node_by_index (Z.of_nat (List.length v1)) s
      = Ok (Some a) (moved (Some a) s) /\
    holds (store s) a d.
Proof.
  intros (ns & Hwl)%represents_well_linked Hnot.
  pose proof Hwl as (Hd & _).
  apply dlseg_split in Hd
    as (l1 & a & l2 & nd & -> & Hl & H1 & Hnd & Hv & Hp & H2).
  exists a. split; [|split].
  - destruct s as [st out [h t c n]]. simpl in H1, Hnd.
    unfold find_node_by_data. run. rewrite <- Hl.
    by erewrite find_node_by_data_loop_found.
  - rewrite <- Hl.
    rewrite (find_node_by_index_at _ _ _ _ Hwl)
      by (rewrite length_app; simpl; lia).
    by rewrite list_lookup_middle.
  - by exists nd.
Qed.

Lemma find_node_by_data_first_match_witness :
  exists a,
    find_node_by_data 2 "b" abc = Ok (Some a) (moved (Some a) abc) /\
    find_node_by_index 1 abc = Ok (Some a) (moved (Some a) abc) /\
    holds (store abc) a "b".
Proof.
  apply (find_node_by_data_first_match ["a"] "b" ["c"] abc 0);
    [exact represents_abc|].
  by intros [= ?]%list_elem_of_singleton.
Defined.



(** ** Stepping along the list *)



(** X10.  In every state a program can reach, [next_node] and
    [previous_node] raise exactly when the cursor is [None]: then both raise
    [AttributeError] and change nothing; otherwise both return a node and
    change nothing but the cursor. *)
Theorem stepping_raises_only_without_cursor s :
  reachable s ->
  match current (self s) with
  | None =>
      next_node_ s = Raise AttributeError s /\
      previous_node s = Raise AttributeError s
  | Some _ =>
      exists b b',
        next_node_ s = Ok (Some b) (moved (Some b) s) /\
        previous_node s = Ok (Some b') (moved (Some b') s)
  end.
Proof.
  intros (ns & Hs)%reachable_Inv.
  destruct s as [st out [h t [a|] n]]; simpl; [|done].
  assert (a ∈ ns) as Hin by (by apply Hs).
  destruct (shape_at ns _ a Hs Hin) as (_ & _ & nd & _ & _ & Hnd & _).
  simpl in Hnd. unfold next_node_, previous_node.
  destruct (next_node nd) as [b|] eqn:En;
    destruct (prev_node nd) as [b'|] eqn:Ep;
    repeat (run; rewrite ?Hnd, ?En, ?Ep); eauto.
Qed.

Lemma stepping_raises_only_without_cursor_witness :
  exists b b',
    next_node_ abc = Ok (Some b) (moved (Some b) abc) /\
    previous_node abc = Ok (Some b') (moved (Some b') abc).
Proof.
  apply (stepping_raises_only_without_cursor abc). exact reachable_abc.
Defined.

(** X11.  The mirror image of C9: in every reachable state where the
    cursor is the head, any number of calls of [previous_node] return the
    head each time, raise nothing and leave the state as it is. *)
Theorem previous_node_at_head_idempotent s a n :
  reachable s ->
  current (self s) = Some a -> head (self s) = Some a ->
  repeat_call n previous_node s = Ok (replicate n (Some a)) s.
Proof.
  intros (ns & Hs)%reachable_Inv Hc Hh.
  destruct Hs as (Hd & _). rewrite Hh in Hd.
  apply dseg_from_Some in Hd as (l' & nd & _ & Hnd & Hp & _).
  assert (previous_node s = Ok (Some a) s) as E.
  { unfold previous_node. destruct Hp as [Hp|Hp];
      repeat (run; rewrite ?Hc, ?Hnd, ?Hp); done. }
  induction n as [|n IH]; [reflexivity|].
  simpl. unfold bind at 1. rewrite E. unfold bind at 1. by rewrite IH.
Qed.

Lemma previous_node_at_head_idempotent_witness :
  repeat_call 3 previous_node (moved (Some 0%nat) abc)
    = Ok [Some 0%nat; Some 0%nat; Some 0%nat] (moved (Some 0%nat) abc).
Proof.
  apply (previous_node_at_head_idempotent _ 0%nat 3); [|reflexivity..].
  apply (reachable_call abc 0 (call_set_current_index 0));
    [exact reachable_abc|reflexivity].
Defined.

(** ** [gather_node_data] and [display_nodes] *)

(** When the loop of [gather_node_data] ends, the cursor is [None]; it
    prints nothing on any way out. *)
Lemma gather_node_data_loop_leaves_None fuel indexes all_nodes :
  forall index list_data s,
  match gather_node_data_loop fuel indexes all_nodes index list_data s with
  | Ok _ s' => current (self s') = None /\ stdout s' = stdout s
  | Raise _ s' => stdout s' = stdout s
  | OutOfFuel => True
  end.
Proof.
  induction fuel as [|fuel IH]; intros index list_data s; [done|].
  destruct s as [st out [h t [a|] n]]; simpl; run; [|done].
  destruct (all_nodes || bool_decide (index ∈ indexes)).
  - destruct (st !! a) as [nd|] eqn:E; repeat (run; rewrite ?E); [|done].
    apply (IH (index + 1) (list_data ++ [(index, data nd)])%list
             (mkState st out (mkLinkedList h t (next_node nd) n))).
  - apply (IH (index + 1) list_data
             (mkState st out (mkLinkedList h t (Some a) n))).
Qed.

Lemma display_nodes_loop_without_cursor l s :
  current (self s) = None ->
  display_nodes_loop l s
    = match l with [] => Ok tt s | _ :: _ => Raise AttributeError s end.
Proof.
  intros Hc. destruct l as [|[index x] l]; [done|].
  simpl. run. by rewrite Hc.
Qed.

(** X12.  [display_nodes] never prints.  Its loop reads
    [self.current.data], and [gather_node_data] returns only once the cursor
    is [None]: so when there is nothing to display it returns, and when
    there is something it raises [AttributeError] at the first line; in
    every case the output is what it was. *)
Theorem display_nodes_never_prints fuel indexes all_nodes s :
  display_nodes fuel indexes all_nodes s
    = match gather_node_data fuel indexes all_nodes s with
      | Ok [] s' => Ok tt s'
      | Ok (_ :: _) s' => Raise AttributeError s'
      | Raise e s' => Raise e s'
      | OutOfFuel => OutOfFuel
      end /\
  match display_nodes fuel indexes all_nodes s with
  | Ok _ s' | Raise _ s' => stdout s' = stdout s
  | OutOfFuel => True
  end.
Proof.
  unfold display_nodes, bind.
  assert (match gather_node_data fuel indexes all_nodes s with
          | Ok _ s' => current (self s') = None /\ stdout s' = stdout s
          | Raise _ s' => stdout s' = stdout s
          | OutOfFuel => True
          end) as H.
  { unfold gather_node_data. run.
    apply (gather_node_data_loop_leaves_None fuel _ all_nodes 0 []
             (moved (head (self s)) s)). }
  destruct (gather_node_data fuel indexes all_nodes s) as [l s'|e s'|];
    [|done..].
  destruct H as (Hc & Hout).
  rewrite (display_nodes_loop_without_cursor l s' Hc).
  by destruct l.
Qed.




(** Counting the indexes asked for from a position on. *)
Lemma length_filter_from_mono (indexes : list Z) i j :
  i <= j ->
  (List.length (filter (fun x => (j <= x)%Z) indexes)
   <= List.length (filter (fun x => (i <= x)%Z) indexes))%nat.
Proof.
  intros Hij. induction indexes as [|x l IH]; [done|].
  rewrite !filter_cons. repeat case_decide; simpl; lia.
Qed.

Lemma length_filter_from_lt (indexes : list Z) i :
  i ∈ indexes ->
  (List.length (filter (fun x => (i + 1 <= x)%Z) indexes)
   < List.length (filter (fun x => (i <= x)%Z) indexes))%nat.
Proof.
  induction indexes as [|x l IH]; [by intros ?%elem_of_nil|].
  intros [->|Hin]%elem_of_cons.
  - pose proof (length_filter_from_mono l x (x + 1)).
    rewrite !filter_cons. repeat case_decide; simpl; lia.
  - specialize (IH Hin). rewrite !filter_cons.
    repeat case_decide; simpl; lia.
Qed.

(** With fewer indexes asked for than nodes left to walk, the loop never
    ends. *)
Lemma gather_node_data_loop_too_few st out h t n indexes :
  forall fuel l pp o index list_data,
  dseg st pp o l None ->
  (List.length (filter (fun x => (index <= x)%Z) indexes)
   < List.length l)%nat ->
  gather_node_data_loop fuel indexes false index list_data
    (mkState st out (mkLinkedList h t o n)) = OutOfFuel.
Proof.
  induction fuel as [|fuel IH]; intros l pp o index list_data Hd Hlt;
    [done|].
  destruct l as [|a l]; [simpl in Hlt; lia|].
  destruct Hd as (-> & nd & Hnd & _ & Hd).
  pose proof (length_filter_from_mono indexes index (index + 1)) as Hle.
  destruct (decide (index ∈ indexes)) as [Hin|Hin].
  - erewrite gather_node_data_loop_take;
      [|done..|by apply bool_decide_eq_true_2].
    eapply IH; [done|].
    pose proof (length_filter_from_lt indexes index Hin).
    simpl in Hlt. lia.
  - erewrite gather_node_data_loop_skip;
      [|done|by apply bool_decide_eq_false_2].
    eapply (IH (a :: l)); [|lia].
    simpl. split; [done|]. exists nd. eauto.
Qed.

(** X14.  The general form of the defect of C3 and C4: without
    [all_nodes], when fewer indexes are passed than the list has nodes,
    [gather_node_data] never returns (the cursor moves only on a match, so
    it cannot get past the last node). *)
Theorem gather_node_data_too_few_indexes values s indexes fuel :
  represents values s ->
  (List.length (default [] indexes) < List.length values)%nat ->
  gather_node_data fuel indexes false s = OutOfFuel.
Proof.
  intros (ns & Hd & _)%represents_well_linked Hlt.
  destruct s as [st out [h t c n]]. simpl in Hd.
  unfold gather_node_data. run.
  eapply gather_node_data_loop_too_few; [by eapply dlseg_dseg|].
  rewrite (dlseg_length _ _ _ _ _ _ Hd).
  eapply Nat.le_lt_trans; [apply length_filter|].
  by destruct indexes.
Qed.

Lemma gather_node_data_too_few_indexes_witness :
  gather_node_data 100 (Some [0; 2]) false abc = OutOfFuel.
Proof.
  apply (gather_node_data_too_few_indexes ["a"; "b"; "c"] abc
           (Some [0; 2]) 100); [exact represents_abc|simpl; lia].
Defined.

(** X15.  [display_nodes(all_nodes=True)] on a list that is not empty
    raises [AttributeError]; nothing is printed, and the cursor is left
    [None]. *)
Theorem display_nodes_all_nodes_raises values s indexes k :
  represents values s -> values <> [] ->
  display_nodes (S (List.length values) + k) indexes true s
    = Raise AttributeError (moved None s).
Proof.
  intros Hrep Hne. unfold display_nodes, bind.
  rewrite (gather_node_data_all values s indexes k Hrep).
  destruct values as [|v values]; [done|]. simpl. by run.
Qed.

Lemma display_nodes_all_nodes_raises_witness :
  display_nodes 4 None true abc = Raise AttributeError (moved None abc).
Proof.
  apply (display_nodes_all_nodes_raises ["a"; "b"; "c"] abc None 0);
    [exact represents_abc|done].
Defined.

(** ** Indexes outside the list *)

Lemma set_current_index_refuses s index :
  index <> 0 -> length (self s) <= index ->
  set_current_index index s
    = Raise (LinkedListError "Index is out of bounds") s.
Proof.
  intros Hne Hidx. unfold set_current_index.
  set (body := try_except_AttributeError _ _). run.
  replace (negb (index =? 0) && (index >? length (self s) - 1)) with true;
    [reflexivity|].
  symmetry. apply andb_true_intro. split.
  - by apply negb_true_iff, Z.eqb_neq.
  - apply Z.gtb_lt. lia.
Qed.

(** X16.  An index other than 0 that is [length] or more is refused by
    every method that positions the cursor with [set_current_index]: each
    raises [LinkedListError('Index is out of bounds')].
    [set_current_index], [modify_node] and [remove_node] leave the state
    exactly as it was; [insert_node] has created its node by then, but the
    list and every node that existed are untouched. *)
Theorem index_out_of_bounds_rejected s index d after new_data :
  index <> 0 -> length (self s) <= index ->
  set_current_index index s
    = Raise (LinkedListError "Index is out of bounds") s /\
  modify_node new_data index s
    = Raise (LinkedListError "Index is out of bounds") s /\
  remove_node index s
    = Raise (LinkedListError "Index is out of bounds") s /\
  insert_node d after index s
    = Raise (LinkedListError "Index is out of bounds")
        (mkState (store s ++ [mkNode d None None]) (stdout s) (self s)).
Proof.
  intros Hne Hidx.
  pose proof (set_current_index_refuses s index Hne Hidx) as E.
  split; [done|]. split; [|split].
  - unfold modify_node, bind. by rewrite E.
  - unfold remove_node, bind. by rewrite E.
  - unfold insert_node, bind, new_Node.
    by rewrite set_current_index_refuses.
Qed.

Lemma index_out_of_bounds_rejected_witness :
  set_current_index 3 abc
    = Raise (LinkedListError "Index is out of bounds") abc /\
  modify_node "x" 3 abc
    = Raise (LinkedListError "Index is out of bounds") abc /\
  remove_node 3 abc
    = Raise (LinkedListError "Index is out of bounds") abc /\
  insert_node "x" true 3 abc
    = Raise (LinkedListError "Index is out of bounds")
        (mkState (store abc ++ [mkNode "x" None None]) (stdout abc)
           (self abc)).
Proof.
  apply (index_out_of_bounds_rejected abc 3 "x" true "x"); simpl; lia.
Defined.

Lemma set_current_index_negative s index :
  index < 0 -> 0 <= length (self s) ->
  set_current_index index s = set_current_index 0 s.
Proof.
  intros Hneg Hlen. unfold set_current_index.
  set (body := try_except_AttributeError _ _). run.
  rewrite Z.gtb_ltb, (proj2 (Z.ltb_ge _ _)), andb_false_r by lia. simpl.
  by replace (Z.to_nat index) with 0%nat by lia.
Qed.

(** X17.  Negative indexes are not counted from the end: on a list whose
    [length] is not negative, every method that takes an index does with a
    negative index exactly what it does with index 0. *)
Theorem negative_index_is_index_0 s index d after new_data :
  index < 0 -> 0 <= length (self s) ->
  set_current_index index s = set_current_index 0 s /\
  find_node_by_index index s = find_node_by_index 0 s /\
  insert_node d after index s = insert_node d after 0 s /\
  modify_node new_data index s = modify_node new_data 0 s /\
  remove_node index s = remove_node 0 s.
Proof.
  intros Hneg Hlen.
  pose proof (set_current_index_negative s index Hneg Hlen) as E.
  split; [done|]. split; [|split; [|split]].
  - unfold find_node_by_index.
    by replace (Z.to_nat index) with (Z.to_nat 0) by lia.
  - unfold insert_node, bind at 1, new_Node. unfold bind at 1.
    rewrite set_current_index_negative by done.
    reflexivity.
  - unfold modify_node, bind. by rewrite E.
  - unfold remove_node, bind. by rewrite E.
Qed.

Lemma negative_index_is_index_0_witness :
  set_current_index (-1) abc = set_current_index 0 abc /\
  find_node_by_index (-1) abc = find_node_by_index 0 abc /\
  insert_node "x" true (-1) abc = insert_node "x" true 0 abc /\
  modify_node "x" (-1) abc = modify_node "x" 0 abc /\
  remove_node (-1) abc = remove_node 0 abc.
Proof.
  apply (negative_index_is_index_0 abc (-1) "x" true "x"); simpl; lia.
Defined.

(** ** Indexes inside the list *)

(** X18.  On a list that stands for [v1 ++ v :: v2],
    [set_current_index(len v1)] and [find_node_by_index(len v1)] put the
    cursor on the same node, which carries [v]; the second returns it.
    Nothing but the cursor changes. *)
Theorem set_current_index_in_range v1 v v2 s :
  represents (v1 ++ v :: v2) s ->
  exists a,
    set_current_index (Z.of_nat (List.length v1)) s
      = Ok tt (moved (Some a) s) /\
    find_node_by_index (Z.of_nat (List.length v1)) s
      = Ok (Some a) (moved (Some a) s) /\
    holds (store s) a v.
Proof.
  intros (ns & Hwl)%represents_well_linked.
  pose proof Hwl as (Hd & _).
  apply dlseg_split in Hd
    as (l1 & a & l2 & nd & -> & Hl & H1 & Hnd & Hv & Hp & H2).
  assert ((l1 ++ a :: l2)%list !! List.length v1 = Some a) as Ea.
  { rewrite <- Hl. by apply list_lookup_middle. }
  exists a. split; [by eapply set_current_index_at|]. split; [|by exists nd].
  rewrite (find_node_by_index_at _ _ _ _ Hwl), Ea; [done|].
  apply lookup_lt_Some in Ea. lia.
Qed.

Lemma set_current_index_in_range_witness :
  exists a,
    set_current_index 1 abc = Ok tt (moved (Some a) abc) /\
    find_node_by_index 1 abc = Ok (Some a) (moved (Some a) abc) /\
    holds (store abc) a "b".
Proof.
  apply (set_current_index_in_range ["a"] "b" ["c"] abc).
  exact represents_abc.
Defined.



(** ** The chain from [head] *)

Lemma dseg_walk_end st pp o l o' :
  dseg st pp o l o' -> walk st (List.length l) o = o'.
Proof.
  revert pp o. induction l as [|a l IH]; intros pp o; simpl; [done|].
  intros (-> & nd & Hnd & _ & H). rewrite Hnd. by eapply IH.
Qed.

(** X20.  No call ever closes a cycle: in every state a program can
    reach, following [next_node] from [head] comes to [None] after finitely
    many steps. *)
Theorem chain_from_head_is_finite s :
  reachable s -> exists k, walk (store s) k (head (self s)) = None.
Proof.
  intros (ns & Hd & _)%reachable_Inv. exists (List.length ns).
  by eapply dseg_walk_end.
Qed.

Lemma chain_from_head_is_finite_witness :
  exists k, walk (store abc) k (head (self abc)) = None.
Proof. apply (chain_from_head_is_finite abc). exact reachable_abc. Defined.

(** X21.  Hence the two loops that walk the whole chain end in every
    state a program can reach: [find_node_by_data] and
    [gather_node_data(all_nodes=True)] return or raise. *)
Theorem walks_over_the_list_end s d indexes :
  reachable s ->
  exists fuel, forall k,
    find_node_by_data (fuel + k) d s <> OutOfFuel /\
    gather_node_data (fuel + k) indexes true s <> OutOfFuel.
Proof.
  intros (ns & Hd & _)%reachable_Inv. exists (S (List.length ns)).
  intros k. destruct s as [st out [h t c n]]. split.
  - unfold find_node_by_data. run.
    pose proof (find_node_by_data_loop_ends st out h t n d ns None h k Hd).
    by destruct (find_node_by_data_loop _ _ _).
  - unfold gather_node_data. run.
    by eapply gather_node_data_loop_all_ends.
Qed.

Lemma walks_over_the_list_end_witness :
  exists fuel, forall k,
    find_node_by_data (fuel + k) "z" abc <> OutOfFuel /\
    gather_node_data (fuel + k) None true abc <> OutOfFuel.
Proof.
  apply (walks_over_the_list_end abc "z" None). exact reachable_abc.
Defined.

(** ** The first node of a list *)

Lemma insert_node_first_linked d after index st out :
  index <= 0 ->
  exists s',
    insert_node d after index
      (mkState st out (mkLinkedList None None None 0))
      = Ok (Some (List.length st)) s' /\
    well_linked [List.length st] [d] s' /\
    current (self s') = Some (List.length st).
Proof.
  intros Hidx.
  assert (set_current_index index
            (mkState (st ++ [mkNode d None None]) out
               (mkLinkedList None None None 0))
          = Ok tt (mkState (st ++ [mkNode d None None]) out
                     (mkLinkedList None None None 0))) as Hset.
  { destruct (decide (index = 0)) as [->|Hne]; [done|].
    rewrite set_current_index_negative by (simpl; lia). done. }
  unfold insert_node. run. rewrite Hset. run.
  eexists. split; [reflexivity|]. split; [|done].
  split; [|split; [|split; [|split]]]; simpl.
  - split; [done|]. eexists _, _, _. split; [done|]. split; [by lk|]. done.
  - apply NoDup_singleton.
  - done.
  - done.
  - intros ? [= <-]. by_elem_of.
Qed.

(** X22.  Inserting into an empty list ignores [after], and any index
    that is not positive is accepted: the new node becomes [head] and
    [tail], the list stands for [[d]], and the cursor is on the new
    node. *)
Theorem insert_node_into_empty s d after index :
  represents [] s -> index <= 0 ->
  exists a s',
    insert_node d after index s = Ok (Some a) s' /\
    represents [d] s' /\
    find_node_by_index 0 s' = Ok (Some a) s' /\
    holds (store s') a d.
Proof.
  intros Hrep Hidx. rewrite (represents_nil_inv s Hrep).
  destruct (insert_node_first_linked d after index (store s) (stdout s) Hidx)
    as (s' & E & Hwl' & Hc).
  exists (List.length (store s)), s'. split; [done|].
  split; [apply represents_well_linked; by eexists|]. split.
  - change 0 with (Z.of_nat 0).
    rewrite (find_node_by_index_at _ _ _ 0 Hwl') by (simpl; lia). simpl.
    destruct s' as [st' out' [h' t' c' n']]. simpl in Hc. by subst c'.
  - by apply (well_linked_lookup _ _ _ 0%nat _ _ Hwl').
Qed.

Lemma insert_node_into_empty_witness :
  exists a s',
    insert_node "x" true (-2) boot = Ok (Some a) s' /\
    represents ["x"] s' /\
    find_node_by_index 0 s' = Ok (Some a) s' /\
    holds (store s') a "x".
Proof.
  apply (insert_node_into_empty boot "x" true (-2));
    [apply represents_nil|lia].
Defined.

(** ** The cursor after construction *)

Lemma init_loop_linked rest :
  forall ns values s,
  well_linked ns values s -> current (self s) = last ns ->
  exists ns' s',
    init_loop (Z.of_nat (List.length values)) rest s = Ok tt s' /\
    well_linked ns' (values ++ rest) s' /\
    current (self s') = last ns'.
Proof.
  induction rest as [|d rest IH]; intros ns values s Hwl Hc; simpl.
  - exists ns, s. by rewrite app_nil_r.
  - assert (exists a ns1 s1,
      (if Z.of_nat (List.length values) =? 0
       then insert_node d false 0
       else insert_node d true (Z.of_nat (List.length values) - 1)) s
        = Ok a s1 /\ well_linked ns1 (values ++ [d]) s1 /\
      current (self s1) = last ns1) as (a & ns1 & s1 & E & Hwl1 & Hc1).
    { destruct values as [|v values _] using rev_ind.
      - assert (represents [] s) as Hrep
          by (apply represents_well_linked; by eexists).
        rewrite (represents_nil_inv s Hrep). simpl.
        destruct (insert_node_first_linked d false 0 (store s) (stdout s))
          as (s1 & ? & ? & ?); [done|].
        eexists _, _, s1. eauto.
      - destruct (well_linked_split _ _ _ _ _ Hwl) as (l1 & b & l2 & -> & Hl).
        assert (l2 = []) as ->.
        { destruct Hwl as (Hd & _). apply dlseg_length in Hd.
          rewrite !length_app in Hd. simpl in Hd.
          destruct l2; [done|simpl in Hd; lia]. }
        destruct (insert_node_after_linked _ _ _ _ _ _ _ d Hwl Hl)
          as (s1 & E & Hwl1 & Hc1).
        replace (Z.of_nat (List.length (values ++ [v])) =? 0) with false
          by (symmetry; apply Z.eqb_neq; rewrite length_app; simpl; lia).
        replace (Z.of_nat (List.length (values ++ [v])) - 1)
          with (Z.of_nat (List.length values))
          by (rewrite length_app; simpl; lia).
        exists (Some (List.length (store s))),
          (l1 ++ [b; List.length (store s)])%list, s1.
        split; [done|]. split; [by rewrite <- app_assoc|].
        rewrite Hc1. by rewrite last_app_cons. }
    unfold bind. rewrite E.
    destruct (IH ns1 (values ++ [d])%list s1 Hwl1 Hc1)
      as (ns' & s' & E' & Hwl' & Hc').
    exists ns', s'. rewrite <- app_assoc in Hwl'. split; [|done].
    rewrite <- E'. f_equal. rewrite length_app. simpl. lia.
Qed.

(** X23.  After [LinkedList(values)] with [values] not empty, the cursor
    is on the tail ([at_tail] is [True]) and carries the last of [values];
    [at_head] is [True] only for a single payload. *)
Theorem constructor_leaves_cursor_on_tail values :
  values <> [] ->
  exists s,
    new_LinkedList (Some values) = Ok tt s /\
    at_tail s = Ok true s /\
    value_at s (current (self s)) = last values /\
    (at_head s = Ok true s <-> List.length values = 1%nat).
Proof.
  intros Hne.
  assert (well_linked [] [] boot) as Hwl0.
  { split; [done|]. split; [apply NoDup_nil_2|]. by repeat split. }
  destruct (init_loop_linked values [] [] boot Hwl0 eq_refl)
    as (ns & s & E & Hwl & Hc).
  simpl in E, Hwl. exists s.
  assert (new_LinkedList (Some values) = Ok tt s) as Enew.
  { unfold new_LinkedList, __init__. run. fold boot. by destruct values. }
  assert (represents values s) as Hrep
    by (apply represents_well_linked; by eexists).
  pose proof Hwl as (Hd & Hdup & Htl & Hlen & _).
  split; [done|]. split; [|split].
  - unfold at_tail. run. rewrite Hc, Htl. by rewrite bool_decide_eq_true_2.
  - rewrite Hc, <- Htl. by apply represents_tail.
  - unfold at_head. run.
    pose proof (dlseg_length _ _ _ _ _ _ Hd) as Hlv. rewrite <- Hlv.
    apply dlseg_dseg, dseg_start in Hd. rewrite Hc, Hd.
    destruct ns as [|a [|b ns]].
    + by destruct values.
    + simpl. rewrite bool_decide_eq_true_2 by done. done.
    + rewrite bool_decide_eq_false_2.
      * split; [discriminate|simpl; lia].
      * change (a :: b :: ns) with ([a] ++ b :: ns)%list at 1.
        rewrite last_app_cons. intros E'.
        assert (a ∈ b :: ns).
        { apply last_Some in E' as (l' & ->). by_elem_of. }
        by_NoDup (conj Hdup H).
Qed.

Lemma constructor_leaves_cursor_on_tail_witness :
  exists s,
    new_LinkedList (Some ["a"; "b"; "c"]) = Ok tt s /\
    at_tail s = Ok true s /\
    value_at s (current (self s)) = Some "c" /\
    (at_head s = Ok true s <-> 3%nat = 1%nat).
Proof.
  apply (constructor_leaves_cursor_on_tail ["a"; "b"; "c"]). done.
Defined.

(** ** What [remove_node] does to the list *)

(** X24.  What [remove_node] does at any valid index: on a list that
    stands for [v1 ++ v :: v2], [remove_node(len v1)] returns [v], takes the
    node out of the chain, takes 1 from [length] and leaves the cursor on
    the node that followed ([None] after the last one).  [head] and [tail]
    are not assigned: the result stands for [v1 ++ v2] once [head] is
    replaced when the first node was removed, and [tail] when the last one
    was. *)
Theorem remove_node_unlinks v1 v v2 s :
  represents (v1 ++ v :: v2) s ->
  exists s' h' t',
    remove_node (Z.of_nat (List.length v1)) s = Ok v s' /\
    represents (v1 ++ v2)
      (mkState (store s') (stdout s')
         (mkLinkedList h' t' (current (self s')) (length (self s')))) /\
    (v1 <> [] -> h' = head (self s')) /\
    (v2 <> [] -> t' = tail (self s')) /\
    head (self s') = head (self s) /\ tail (self s') = tail (self s) /\
    find_node_by_index (Z.of_nat (S (List.length v1))) s
      = Ok (current (self s')) (moved (current (self s')) s).
Proof.
  intros (ns & Hwl)%represents_well_linked.
  destruct s as [st out [h t c n]].
  pose proof Hwl as (Hd & Hdup & Htl & Hlen & Hc). simpl in Hd, Htl, Hlen, Hc.
  apply dlseg_split in Hd
    as (l1 & a & l2 & nd & -> & Hl & H1 & Hnd & Hv & Hp & H2).
  assert ((l1 ++ a :: l2)%list !! List.length v1 = Some a) as Ea.
  { rewrite <- Hl. by apply list_lookup_middle. }
  assert (find_node_by_index (Z.of_nat (S (List.length v1)))
            (mkState st out (mkLinkedList h t c n))
          = Ok (l2 !! 0%nat)
              (mkState st out (mkLinkedList h t (l2 !! 0%nat) n))) as Efind.
  { rewrite (find_node_by_index_at _ _ _ _ Hwl)
      by (rewrite length_app; simpl; lia).
    rewrite <- Hl, lookup_app_r by lia.
    by replace (S (List.length l1) - List.length l1)%nat with 1%nat by lia. }
  rewrite Efind. clear Efind.
  rewrite length_app in Hlen. simpl in Hlen.
  apply lookup_lt_Some in Hnd as Ha.
  unfold remove_node. run.
  rewrite (set_current_index_at _ _ _ _ _ Hwl Ea). run.
  destruct l1 as [|p l1 _] using rev_ind; destruct l2 as [|b l2].
  - (* the only node *)
    destruct H1 as (-> & ->). destruct H2 as (Hn & ->).
    change (prev_node nd = None) in Hp.
    repeat (run; lk; rewrite ?Hnd, ?Hp, ?Hn).
    eexists _, None, None. split; [by rewrite Hv|].
    split; [|by repeat split]. simpl.
    apply represents_well_linked. exists []. split; [done|].
    split; [apply NoDup_nil_2|]. repeat split; [simpl in *; lia|done].
  - (* the first node: its successor [b] loses its predecessor *)
    destruct H1 as (-> & ->). change (prev_node nd = None) in Hp.
    destruct H2 as (Hn & ndb & vb & v2' & -> & Hndb & Hvb & Hpb & H2).
    assert (b <> a) as Hba by by_NoDup Hdup.
    apply lookup_lt_Some in Hndb as Hblt.
    repeat (run; lk; rewrite ?Hnd, ?Hp, ?Hn, ?Hndb).
    eexists _, (Some b), t. split; [by rewrite Hv|].
    split; [|by repeat split]. simpl.
    apply represents_well_linked. exists (b :: l2).
    split; [|split; [|split; [|split]]]; simpl.
    + split; [done|]. eexists _, _, _. split; [done|].
      split; [by lk|]. simpl. do 2 (split; [done|]).
      apply (dlseg_ext st); [|done]. intros x Hx.
      assert (x <> b) by by_NoDup (conj Hdup Hx). by lk.
    + by_NoDup Hdup.
    + rewrite Htl. change ([] ++ a :: b :: l2)%list with ([a] ++ b :: l2)%list.
      by rewrite last_app_cons.
    + simpl in Hlen. lia.
    + intros ? [= <-]. by_elem_of.
  - (* the last node: its predecessor [p] loses its successor *)
    apply dlseg_snoc in H1 as (vs & ndp & -> & H1 & Hndp & Hpp & Hnp).
    destruct H2 as (Hn & ->). rewrite last_or_snoc in Hp.
    assert (p <> a) as Hpa by by_NoDup Hdup.
    apply lookup_lt_Some in Hndp as Hplt.
    repeat (run; lk; rewrite ?Hnd, ?Hp, ?Hn, ?Hndp).
    eexists _, h, (Some p). split; [by rewrite Hv|].
    split; [|by repeat split]. simpl. rewrite app_nil_r.
    apply represents_well_linked. exists (l1 ++ [p])%list.
    split; [|split; [|split; [|split]]]; simpl.
    + apply dlseg_snoc. exists vs, (mkNode (data ndp) (prev_node ndp) None).
      split; [done|]. split; [|split; [by lk|done]].
      apply (dlseg_ext st); [|done]. intros x Hx.
      assert (x <> p) by by_NoDup (conj Hdup Hx). by lk.
    + by_NoDup Hdup.
    + by rewrite last_snoc.
    + rewrite ?length_app in Hlen. rewrite !length_app.
      simpl in Hlen |- *. lia.
    + done.
  - (* a node in between: [p] and [b] are linked to each other *)
    apply dlseg_snoc in H1 as (vs & ndp & -> & H1 & Hndp & Hpp & Hnp).
    destruct H2 as (Hn & ndb & vb & v2' & -> & Hndb & Hvb & Hpb & H2).
    rewrite last_or_snoc in Hp.
    assert (p <> a /\ b <> a /\ b <> p) as (Hpa & Hba & Hbp) by by_NoDup Hdup.
    apply lookup_lt_Some in Hndp as Hplt.
    apply lookup_lt_Some in Hndb as Hblt.
    repeat (run; lk; rewrite ?Hnd, ?Hp, ?Hn, ?Hndp, ?Hndb).
    eexists _, h, t. split; [by rewrite Hv|].
    split; [|by repeat split]. simpl.
    apply represents_well_linked. exists ((l1 ++ [p]) ++ b :: l2)%list.
    split; [|split; [|split; [|split]]]; simpl.
    + subst vb.
      apply (dlseg_join _ _ _ _ _ _ _ _ _
               (mkNode (data ndb) (Some p) (next_node ndb))).
      * apply dlseg_snoc.
        exists vs, (mkNode (data ndp) (prev_node ndp) (Some b)).
        split; [done|]. split; [|split; [by lk|done]].
        apply (dlseg_ext st); [|done]. intros x Hx.
        assert (x <> p /\ x <> b) as (? & ?) by by_NoDup (conj Hdup Hx).
        by lk.
      * by lk.
      * by rewrite last_or_snoc.
      * apply (dlseg_ext st); [|done]. intros x Hx.
        assert (x <> p /\ x <> b) as (? & ?) by by_NoDup (conj Hdup Hx).
        by lk.
    + by_NoDup Hdup.
    + rewrite Htl, !last_app_cons.
      change (a :: b :: l2) with ([a] ++ b :: l2)%list.
      by rewrite last_app_cons.
    + rewrite ?length_app in Hlen. rewrite !length_app.
      simpl in Hlen |- *. lia.
    + intros ? [= <-]. by_elem_of.
Qed.

Lemma remove_node_unlinks_witness :
  exists s' h' t',
    remove_node 0 abc = Ok "a" s' /\
    represents ["b"; "c"]
      (mkState (store s') (stdout s')
         (mkLinkedList h' t' (current (self s')) (length (self s')))) /\
    (@nil string <> [] -> h' = head (self s')) /\
    (["b"; "c"] <> [] -> t' = tail (self s')) /\
    head (self s') = head (self abc) /\ tail (self s') = tail (self abc) /\
    find_node_by_index 1 abc
      = Ok (current (self s')) (moved (current (self s')) abc).
Proof.
  apply (remove_node_unlinks [] "a" ["b"; "c"] abc). exact represents_abc.
Defined.
